(** * Visibility graphs of time series

    A shallow embedding of [networkx/generators/time_series.py]:
    [visibility_graph], [horizontal_visibility_graph] and
    [directed_horizontal_visibility_graph], together with the part of the
    networkx graph classes these three functions call.

    Series elements are Python numbers.  The code only ever applies
    [-], [/], [*], [+], [>=] and [max] to them, so the embedding is
    generic in a type with these operations (the classes [Comparable] and
    [Number] below).  Three instances are given:
    - [pynum], Python's [int] and [float] with the coercions of mixed
      arithmetic, [float] being IEEE 754 binary64 with rounding to nearest
      even; this is what the code computes on a list of [int] or [float];
    - [Q], exact rationals, Python's [fractions.Fraction];
    - [Z], Python's [int] under comparison alone, which is all the
      horizontal variants ask of a sample.
    The statements proved for every instance make no assumption on the
    arithmetic. *)

From Stdlib Require Import ZArith QArith Lia Lqa.
From Stdlib Require Import Floats.SpecFloat.
From stdpp Require Import gmap strings list fin_maps.

#[local] Set Warnings "-clear-no-such-hyp".

(** ** Python numbers *)

(** The rich comparisons the code uses: [t >= x] and, through the builtin
    [max], [t2 > t1]. *)
Class Comparable (T : Type) := {
  num_ge : T → T → bool;
  num_gt : T → T → bool
}.

(** The arithmetic the natural variant uses on top of the comparisons.
    [num_of_int] is the coercion of an index (a Python [int]) met by a
    binary operator whose other operand is a series element. *)
Class Number (T : Type) := {
  number_comparable :: Comparable T;
  num_of_int : Z → T;
  num_sub : T → T → T;
  num_truediv : T → T → T;
  num_mul : T → T → T;
  num_add : T → T → T
}.

(** The builtin [max(a, b)]: the first argument is kept unless the second
    compares strictly greater. *)
Definition py_max {T} `{Comparable T} (a b : T) : T :=
  if num_gt b a then b else a.

(** Python [int], compared exactly. *)
#[export] Instance Comparable_Z : Comparable Z := {|
  num_ge a b := (b <=? a)%Z;
  num_gt a b := (b <? a)%Z
|}.

(** Exact rationals ([fractions.Fraction]). *)
#[export] Instance Comparable_Q : Comparable Q := {|
  num_ge a b := Qle_bool b a;
  num_gt a b := negb (Qle_bool a b)
|}.

#[export] Instance Number_Q : Number Q := {|
  number_comparable := Comparable_Q;
  num_of_int := inject_Z;
  num_sub := Qminus;
  num_truediv := Qdiv;
  num_mul := Qmult;
  num_add := Qplus
|}.

(** Python [float]: binary64, that is 53 bits of precision and exponents
    below 1024. *)
Definition float_prec : Z := 53.
Definition float_emax : Z := 1024.

(** [float(z)] for an [int] [z]: the nearest binary64 number, ties to
    even. *)
Definition float_of_int (z : Z) : spec_float :=
  binary_normalize float_prec float_emax z 0 false.

(** A Python number as the code meets it in a list of [int] or [float]. *)
Inductive pynum :=
  | PyInt (z : Z)
  | PyFloat (f : spec_float).

Definition as_float (x : pynum) : spec_float :=
  match x with
  | PyInt z => float_of_int z
  | PyFloat f => f
  end.

(** [x - y], [x * y] and [x + y]: exact on two [int], computed in binary64
    once an operand is a [float], the other operand being converted. *)
Definition pynum_arith (int_op : Z → Z → Z)
    (float_op : spec_float → spec_float → spec_float) (x y : pynum) : pynum :=
  match x, y with
  | PyInt a, PyInt b => PyInt (int_op a b)
  | _, _ => PyFloat (float_op (as_float x) (as_float y))
  end.

(** [x / y], true division: always a [float].  On two [int] Python rounds
    the exact quotient once; dividing the converted operands is the same
    as long as both convert exactly (magnitude below [2^53]).  The code
    never divides by zero: the divisor is [n2 - n1] with [n1 < n2]. *)
Definition pynum_truediv (x y : pynum) : pynum :=
  PyFloat (SFdiv float_prec float_emax (as_float x) (as_float y)).

(** Comparisons: exact on two [int], the binary64 comparison otherwise
    (exact as well when the [int] operand converts exactly). *)
Definition pynum_cmp (int_cmp : Z → Z → bool)
    (float_cmp : spec_float → spec_float → bool) (x y : pynum) : bool :=
  match x, y with
  | PyInt a, PyInt b => int_cmp a b
  | _, _ => float_cmp (as_float x) (as_float y)
  end.

#[export] Instance Comparable_pynum : Comparable pynum := {|
  num_ge a b := pynum_cmp Z.leb SFleb b a;
  num_gt a b := pynum_cmp Z.ltb SFltb b a
|}.

#[export] Instance Number_pynum : Number pynum := {|
  number_comparable := Comparable_pynum;
  num_of_int := PyInt;
  num_sub := pynum_arith Z.sub (SFsub float_prec float_emax);
  num_truediv := pynum_truediv;
  num_mul := pynum_arith Z.mul (SFmul float_prec float_emax);
  num_add := pynum_arith Z.add (SFadd float_prec float_emax)
|}.

(** ** Builtins and itertools *)

(** [enumerate(l, start)]. *)
Fixpoint enumerate {A} (start : nat) (l : list A) : list (nat * A) :=
  match l with
  | [] => []
  | x :: r => (start, x) :: enumerate (S start) r
  end.

(** [itertools.combinations(l, 2)]: every pair of positions [i < j], in
    lexicographic order of the positions. *)
Fixpoint combinations2 {A} (l : list A) : list (A * A) :=
  match l with
  | [] => []
  | x :: r => map (pair x) r ++ combinations2 r
  end.

(** [l[lo:hi]] for non-negative bounds: empty when [hi <= lo], clipped at
    the end of the list. *)
Definition slice {A} (lo hi : nat) (l : list A) : list A :=
  take (hi - lo) (drop lo l).

(** [range(n)]. *)
Definition range (n : nat) : list nat := seq 0 n.

(** [networkx.utils.pairwise(l)]: consecutive elements, [(l0, l1), (l1, l2), ...]. *)
Definition pairwise {A} (l : list A) : list (A * A) := zip l (tail l).

(** ** The graph classes *)

Module Graph.

(** Modelled from the spec: the class [networkx.Graph], which is not
    among the sources.  The spec (section 6) asks of it the creation of a
    path over [n] nodes, the setting of a named attribute on every node
    from a mapping keyed by index, and the idempotent insertion of an
    edge between two nodes.  The model is the dict-of-dicts of networkx:
    [_node] maps a node to its attribute dict, [_adj] maps a node to the
    set of its neighbours (edge attribute dicts are always empty here
    and are left out). *)
Record t (V : Type) := mk {
  _node : gmap nat (gmap string V);
  _adj : gmap nat (gset nat)
}.
Arguments mk {V} _ _.
Arguments _node {V} _.
Arguments _adj {V} _.

Section ops.
Context {V : Type}.

Definition empty : t V := mk ∅ ∅.

(** [G.add_node(n)] without attributes: a node already present is left
    as it is. *)
Definition add_node (G : t V) (n : nat) : t V :=
  match _node G !! n with
  | None => mk (<[n := ∅]> (_node G)) (<[n := ∅]> (_adj G))
  | Some _ => G
  end.

Definition add_nodes_from (G : t V) (ns : list nat) : t V :=
  fold_left add_node ns G.

(** [G.add_edge(u, v)]: both end points are created when missing, then
    each is recorded as a neighbour of the other. *)
Definition add_edge (G : t V) (u v : nat) : t V :=
  let G := add_node G u in
  let G := add_node G v in
  let adj := _adj G in
  let adj := <[u := {[v]} ∪ default ∅ (adj !! u)]> adj in
  let adj := <[v := {[u]} ∪ default ∅ (adj !! v)]> adj in
  mk (_node G) adj.

Definition add_edges_from (G : t V) (es : list (nat * nat)) : t V :=
  fold_left (λ G e, add_edge G e.1 e.2) es G.

(** [G.has_edge(u, v)]: [v in self._adj[u]], [False] on a missing [u]. *)
Definition has_edge (G : t V) (u v : nat) : bool :=
  match _adj G !! u with
  | Some nbrs => bool_decide (v ∈ nbrs)
  | None => false
  end.

Definition number_of_nodes (G : t V) : nat := size (_node G).

(** [G.degree[n]]: a self-loop counts twice. *)
Definition degree (G : t V) (n : nat) : nat :=
  match _adj G !! n with
  | Some nbrs => size nbrs + (if bool_decide (n ∈ nbrs) then 1 else 0)
  | None => 0
  end.

(** [G.number_of_edges()]: half the sum of the degrees. *)
Definition number_of_edges (G : t V) : nat :=
  sum_list (map (degree G) (map fst (map_to_list (_node G)))) / 2.

(** [nx.empty_graph(n)] and [nx.path_graph(n)]. *)
Definition empty_graph (n : nat) : t V := add_nodes_from empty (range n).

Definition path_graph (n : nat) : t V :=
  add_edges_from (empty_graph n) (pairwise (range n)).

(** [nx.set_node_attributes(G, values, name)] with [values] a dict,
    given by its items: a key that is not a node is skipped. *)
Definition set_node_attributes (G : t V) (values : list (nat * V))
    (name : string) : t V :=
  fold_left (λ G '(n, v),
    match _node G !! n with
    | Some d => mk (<[n := <[name := v]> d]> (_node G)) (_adj G)
    | None => G
    end) values G.

(** [G.nodes[n][name]], [None] when the node or the attribute is missing. *)
Definition node_attr (G : t V) (n : nat) (name : string) : option V :=
  _node G !! n ≫= (.!! name).

End ops.
End Graph.

Module DiGraph.

(** Modelled from the spec: the class [networkx.DiGraph], which is not
    among the sources.  As [Graph], with the successors and the
    predecessors of every node kept apart, so that an edge has a
    direction. *)
Record t (V : Type) := mk {
  _node : gmap nat (gmap string V);
  _succ : gmap nat (gset nat);
  _pred : gmap nat (gset nat)
}.
Arguments mk {V} _ _ _.
Arguments _node {V} _.
Arguments _succ {V} _.
Arguments _pred {V} _.

Section ops.
Context {V : Type}.

Definition empty : t V := mk ∅ ∅ ∅.

Definition add_node (G : t V) (n : nat) : t V :=
  match _node G !! n with
  | None => mk (<[n := ∅]> (_node G)) (<[n := ∅]> (_succ G)) (<[n := ∅]> (_pred G))
  | Some _ => G
  end.

Definition add_nodes_from (G : t V) (ns : list nat) : t V :=
  fold_left add_node ns G.

(** [G.add_edge(u, v)]: [v] becomes a successor of [u] and [u] a
    predecessor of [v]. *)
Definition add_edge (G : t V) (u v : nat) : t V :=
  let G := add_node G u in
  let G := add_node G v in
  mk (_node G)
     (<[u := {[v]} ∪ default ∅ (_succ G !! u)]> (_succ G))
     (<[v := {[u]} ∪ default ∅ (_pred G !! v)]> (_pred G)).

Definition add_edges_from (G : t V) (es : list (nat * nat)) : t V :=
  fold_left (λ G e, add_edge G e.1 e.2) es G.

(** [G.has_edge(u, v)]: [v in self._succ[u]]. *)
Definition has_edge (G : t V) (u v : nat) : bool :=
  match _succ G !! u with
  | Some nbrs => bool_decide (v ∈ nbrs)
  | None => false
  end.

(** [G.has_predecessor(v, u)]: [u in self._pred[v]]. *)
Definition has_predecessor (G : t V) (v u : nat) : bool :=
  match _pred G !! v with
  | Some nbrs => bool_decide (u ∈ nbrs)
  | None => false
  end.

Definition number_of_nodes (G : t V) : nat := size (_node G).

(** [G.degree[n]]: in-degree plus out-degree. *)
Definition degree (G : t V) (n : nat) : nat :=
  size (default ∅ (_pred G !! n)) + size (default ∅ (_succ G !! n)).

Definition number_of_edges (G : t V) : nat :=
  sum_list (map (degree G) (map fst (map_to_list (_node G)))) / 2.

(** [nx.path_graph(n, create_using=nx.DiGraph())]. *)
Definition empty_graph (n : nat) : t V := add_nodes_from empty (range n).

Definition path_graph (n : nat) : t V :=
  add_edges_from (empty_graph n) (pairwise (range n)).

Definition set_node_attributes (G : t V) (values : list (nat * V))
    (name : string) : t V :=
  fold_left (λ G '(n, v),
    match _node G !! n with
    | Some d => mk (<[n := <[name := v]> d]> (_node G)) (_succ G) (_pred G)
    | None => G
    end) values G.

Definition node_attr (G : t V) (n : nat) (name : string) : option V :=
  _node G !! n ≫= (.!! name).

End ops.
End DiGraph.

(** ** The three generators *)

Section natural.
Context {T : Type} `{Number T}.

(** Lines 62 to 68: the line through [(n1, t1)] and [(n2, t2)], and
    whether a sample strictly between them reaches it. *)
Definition natural_obstructed (series : list T)
    (n1 : nat) (t1 : T) (n2 : nat) (t2 : T) : bool :=
  let slope :=
    num_truediv (num_sub t2 t1) (num_of_int (Z.of_nat n2 - Z.of_nat n1)) in
  let offset := num_sub t2 (num_mul slope (num_of_int (Z.of_nat n2))) in
  existsb
    (λ '(n, t), num_ge t (num_add (num_mul slope (num_of_int (Z.of_nat n))) offset))
    (enumerate (n1 + 1) (slice (n1 + 1) n2 series)).

Definition visibility_graph (series : list T) : Graph.t T :=
  let G := Graph.path_graph (length series) in
  let G := Graph.set_node_attributes G (enumerate 0 series) "value" in
  fold_left
    (λ G '((n1, t1), (n2, t2)),
       let obstructed := natural_obstructed series n1 t1 n2 t2 in
       if negb obstructed then Graph.add_edge G n1 n2 else G)
    (combinations2 (enumerate 0 series)) G.
End natural.

Section horizontal.
Context {T : Type} `{Comparable T}.

(** Lines 122 to 125 and 179 to 182: whether a sample strictly between
    the two end points reaches [max(t1, t2)]. *)
Definition horizontal_obstructed (timeseries : list T)
    (n1 : nat) (t1 : T) (n2 : nat) (t2 : T) : bool :=
  existsb
    (λ '(n, t), num_ge t (py_max t1 t2))
    (enumerate (n1 + 1) (slice (n1 + 1) n2 timeseries)).

Definition horizontal_visibility_graph (timeseries : list T) : Graph.t T :=
  let G := Graph.path_graph (length timeseries) in
  let G := Graph.set_node_attributes G (enumerate 0 timeseries) "value" in
  fold_left
    (λ G '((n1, t1), (n2, t2)),
       let obstructed := horizontal_obstructed timeseries n1 t1 n2 t2 in
       if negb obstructed then Graph.add_edge G n1 n2 else G)
    (combinations2 (enumerate 0 timeseries)) G.

Definition directed_horizontal_visibility_graph (timeseries : list T)
    : DiGraph.t T :=
  let G := DiGraph.path_graph (length timeseries) in
  let G := DiGraph.set_node_attributes G (enumerate 0 timeseries) "value" in
  fold_left
    (λ G '((n1, t1), (n2, t2)),
       let obstructed := horizontal_obstructed timeseries n1 t1 n2 t2 in
       if negb obstructed then DiGraph.add_edge G n1 n2 else G)
    (combinations2 (enumerate 0 timeseries)) G.
End horizontal.

(** ** The inputs of the documented examples *)

(** [[2, 1, 3, 2, 1, 3, 2, 1, 3, 2, 1, 3]], a list of Python [int]. *)
Definition periodic : list Z := [2; 1; 3; 2; 1; 3; 2; 1; 3; 2; 1; 3]%Z.

(** [range(10)]. *)
Definition ramp : list pynum := map (λ n, PyInt (Z.of_nat n)) (range 10).

(** [[0, 0, 0, 0, 1, 0, 0, 2]]: the sample at position 4 lies on the line
    from position 1 to position 7, of slope one third. *)
Definition third_slope : list pynum :=
  map PyInt [0; 0; 0; 0; 1; 0; 0; 2]%Z.

(** [[2.0**-60, 0.0, 2.0**-60]]. *)
Definition tiny_step : list pynum :=
  map PyFloat [binary_normalize float_prec float_emax 1 (-60) false;
               S754_zero false;
               binary_normalize float_prec float_emax 1 (-60) false].

(** ** Invariants of the graph classes *)

(** A node has an adjacency entry only if it has an attribute dict:
    [add_node] creates both together. *)
Definition graph_wf {V} (G : Graph.t V) : Prop :=
  ∀ n, Graph._node G !! n = None → Graph._adj G !! n = None.

Definition graph_nbrs {V} (G : Graph.t V) (n : nat) : gset nat :=
  default ∅ (Graph._adj G !! n).

Definition digraph_wf {V} (G : DiGraph.t V) : Prop :=
  ∀ n, DiGraph._node G !! n = None →
       DiGraph._succ G !! n = None ∧ DiGraph._pred G !! n = None.

Definition digraph_succs {V} (G : DiGraph.t V) (n : nat) : gset nat :=
  default ∅ (DiGraph._succ G !! n).

Definition digraph_preds {V} (G : DiGraph.t V) (n : nat) : gset nat :=
  default ∅ (DiGraph._pred G !! n).

(** ** The loop of the generators, with the test as a parameter *)

(** The body the two undirected generators have in common: the seeded path,
    the attributes, and the scan of every pair, [obs] standing for the
    obstruction test.  [visibility_graph_build] and
    [horizontal_visibility_graph_build] show that the generators are its
    instances. *)
Definition undirected_build {V} (series : list V)
    (obs : nat → V → nat → V → bool) : Graph.t V :=
  fold_left
    (λ G '((n1, t1), (n2, t2)),
       if negb (obs n1 t1 n2 t2) then Graph.add_edge G n1 n2 else G)
    (combinations2 (enumerate 0 series))
    (Graph.set_node_attributes (Graph.path_graph (length series))
       (enumerate 0 series) "value").

(** The same for the directed generator. *)
Definition directed_build {V} (series : list V)
    (obs : nat → V → nat → V → bool) : DiGraph.t V :=
  fold_left
    (λ G '((n1, t1), (n2, t2)),
       if negb (obs n1 t1 n2 t2) then DiGraph.add_edge G n1 n2 else G)
    (combinations2 (enumerate 0 series))
    (DiGraph.set_node_attributes (DiGraph.path_graph (length series))
       (enumerate 0 series) "value").

(** ** Lists: positions in [enumerate], [slice] and [combinations2] *)

Section list_facts.
Context {A : Type}.
Implicit Types (l : list A) (x y : A).

Lemma enumerate_lookup l start i :
  enumerate start l !! i = (λ x, (start + i, x)) <$> l !! i.
Proof.
  revert start i. induction l as [|a l IH]; intros start [|i]; simpl; try done.
  - by rewrite Nat.add_0_r.
  - rewrite IH. destruct (l !! i); simpl; [|done].
    do 2 f_equal. lia.
Qed.

Lemma elem_of_enumerate l start n x :
  (n, x) ∈ enumerate start l ↔ start ≤ n ∧ l !! (n - start) = Some x.
Proof.
  rewrite list_elem_of_lookup. split.
  - intros [i Hi]. rewrite enumerate_lookup in Hi.
    destruct (l !! i) as [a|] eqn:E; simplify_eq/=.
    split; [lia|]. by replace (start + i - start) with i by lia.
  - intros [Hle Hl]. exists (n - start). rewrite enumerate_lookup, Hl. simpl.
    by replace (start + (n - start)) with n by lia.
Qed.

Lemma length_enumerate l start : length (enumerate start l) = length l.
Proof. revert start. induction l; intros; simpl; auto. Qed.

Lemma slice_lookup l lo hi i :
  slice lo hi l !! i = if decide (lo + i < hi) then l !! (lo + i) else None.
Proof.
  unfold slice. case_decide.
  - rewrite lookup_take_lt by lia. by rewrite lookup_drop.
  - apply lookup_take_ge. lia.
Qed.

(** The samples a scan between [n1] and [n2] visits are the ones at the
    positions strictly between the two. *)
Lemma elem_of_interior l n1 n2 k x :
  (k, x) ∈ enumerate (n1 + 1) (slice (n1 + 1) n2 l) ↔
  n1 < k < n2 ∧ l !! k = Some x.
Proof.
  rewrite elem_of_enumerate, slice_lookup. split.
  - intros [Hle Hl]. case_decide; [|done].
    replace (n1 + 1 + (k - (n1 + 1))) with k in * by lia. split; [lia|done].
  - intros [Hk Hl]. split; [lia|]. rewrite decide_True by lia.
    by replace (n1 + 1 + (k - (n1 + 1))) with k by lia.
Qed.

Lemma interior_consecutive l n1 :
  enumerate (n1 + 1) (slice (n1 + 1) (S n1) l) = [].
Proof. unfold slice. by replace (S n1 - (n1 + 1)) with 0 by lia. Qed.

Lemma elem_of_combinations2 l x y :
  (x, y) ∈ combinations2 l ↔
  ∃ i j, i < j ∧ l !! i = Some x ∧ l !! j = Some y.
Proof.
  induction l as [|a l IH]; simpl.
  - split; [by intros ?%elem_of_nil|]. by intros (i & j & _ & ? & _).
  - rewrite elem_of_app, list_elem_of_fmap, IH. split.
    + intros [(y' & ? & Hy)|(i & j & Hij & Hi & Hj)]; simplify_eq.
      * apply list_elem_of_lookup in Hy as [j Hj].
        exists 0, (S j). split; [lia|done].
      * exists (S i), (S j). split; [lia|done].
    + intros (i & [|j] & Hij & Hi & Hj); [lia|].
      destruct i as [|i]; simpl in *; simplify_eq.
      * left. exists y. split; [done|]. apply list_elem_of_lookup; eauto.
      * right. exists i, j. split; [lia|done].
Qed.
End list_facts.

(** The pairs the three generators scan: every two positions [n1 < n2] of
    the series, each with its sample. *)
Lemma elem_of_scan {A} (series : list A) n1 t1 n2 t2 :
  ((n1, t1), (n2, t2)) ∈ combinations2 (enumerate 0 series) ↔
  n1 < n2 ∧ series !! n1 = Some t1 ∧ series !! n2 = Some t2.
Proof.
  rewrite elem_of_combinations2. split.
  - intros (i & j & Hij & Hi & Hj). rewrite enumerate_lookup in Hi, Hj.
    destruct (series !! i) eqn:Ei, (series !! j) eqn:Ej; simplify_eq/=. done.
  - intros (Hlt & H1 & H2). exists n1, n2. rewrite !enumerate_lookup, H1, H2. done.
Qed.

Lemma elem_of_pairwise_range n u v :
  (u, v) ∈ pairwise (range n) ↔ v = S u ∧ v < n.
Proof.
  unfold pairwise, range. rewrite list_elem_of_lookup. split.
  - intros [i Hi]. apply lookup_zip_with_Some in Hi as (a & b & ? & Ha & Hb).
    simplify_eq. rewrite lookup_tail in Hb.
    apply lookup_seq in Ha as [-> ?], Hb as [-> ?]. simpl. lia.
  - intros [-> Hlt]. exists u. apply lookup_zip_with_Some. exists u, (S u).
    split; [done|]. rewrite lookup_tail, !lookup_seq. simpl. split; split; lia.
Qed.

(** ** Facts on [Graph] *)

Lemma fold_left_ext_eq {A B} (f g : A → B → A) (l : list B) (a : A) :
  (∀ a b, f a b = g a b) → fold_left f l a = fold_left g l a.
Proof. intros Hfg. revert a. induction l; intros; simpl; [done|]. by rewrite Hfg. Qed.

Section graph_facts.
Context {V : Type}.
Implicit Types G : Graph.t V.

Lemma graph_has_edge_nbrs G u v :
  Graph.has_edge G u v = true ↔ v ∈ graph_nbrs G u.
Proof.
  unfold Graph.has_edge, graph_nbrs. destruct (Graph._adj G !! u); simpl.
  - by rewrite bool_decide_eq_true.
  - split; [done|]. by intros ?%not_elem_of_empty.
Qed.

Lemma graph_add_node_wf G n : graph_wf G → graph_wf (Graph.add_node G n).
Proof.
  intros Hwf m. unfold Graph.add_node. destruct (Graph._node G !! n) eqn:E; simpl.
  - apply Hwf.
  - destruct (decide (n = m)) as [->|]; [by rewrite lookup_insert_eq|].
    rewrite !lookup_insert_ne by done. apply Hwf.
Qed.

Lemma graph_add_node_nbrs G n a :
  graph_wf G → graph_nbrs (Graph.add_node G n) a = graph_nbrs G a.
Proof.
  intros Hwf. unfold Graph.add_node, graph_nbrs.
  destruct (Graph._node G !! n) eqn:E; simpl; [done|].
  destruct (decide (n = a)) as [->|].
  - by rewrite lookup_insert_eq, (Hwf _ E).
  - by rewrite lookup_insert_ne.
Qed.

Lemma graph_add_node_dom G n :
  dom (Graph._node (Graph.add_node G n)) = {[n]} ∪ dom (Graph._node G).
Proof.
  unfold Graph.add_node. destruct (Graph._node G !! n) eqn:E; simpl.
  - assert (n ∈ dom (Graph._node G)) by (apply elem_of_dom; eauto). set_solver.
  - by rewrite dom_insert_L.
Qed.

Lemma graph_add_node_attr G n m name :
  Graph.node_attr (Graph.add_node G n) m name = Graph.node_attr G m name.
Proof.
  unfold Graph.add_node, Graph.node_attr.
  destruct (Graph._node G !! n) eqn:E; simpl; [done|].
  destruct (decide (n = m)) as [->|].
  - by rewrite lookup_insert_eq, E.
  - by rewrite lookup_insert_ne.
Qed.

Lemma graph_add_edge_wf G u v : graph_wf G → graph_wf (Graph.add_edge G u v).
Proof.
  intros Hwf m Hm. unfold Graph.add_edge in *. simpl in *.
  pose proof (graph_add_node_wf _ v (graph_add_node_wf _ u Hwf)) as Hwf'.
  assert (m ∉ dom (Graph._node (Graph.add_node (Graph.add_node G u) v))) as Hd
    by by apply not_elem_of_dom.
  rewrite !graph_add_node_dom in Hd.
  rewrite !lookup_insert_ne by set_solver. by apply Hwf'.
Qed.

Lemma graph_add_edge_nbrs G u v a :
  graph_wf G →
  graph_nbrs (Graph.add_edge G u v) a =
    graph_nbrs G a ∪ (if decide (a = u) then {[v]} else ∅)
                   ∪ (if decide (a = v) then {[u]} else ∅).
Proof.
  intros Hwf. unfold Graph.add_edge. unfold graph_nbrs at 1. simpl.
  pose proof (graph_add_node_nbrs (Graph.add_node G u) v) as H2.
  pose proof (graph_add_node_nbrs G u) as H1.
  pose proof (graph_add_node_wf _ u Hwf) as Hwf1.
  unfold graph_nbrs in H1, H2.
  destruct (decide (a = v)) as [->|Hv].
  - rewrite lookup_insert_eq. simpl.
    destruct (decide (v = u)) as [->|Hu].
    + rewrite lookup_insert_eq. simpl. rewrite H2, H1 by done. set_solver.
    + rewrite lookup_insert_ne by done. rewrite H2, H1 by done. set_solver.
  - rewrite lookup_insert_ne by done.
    destruct (decide (a = u)) as [->|Hu].
    + rewrite lookup_insert_eq. simpl. rewrite H2, H1 by done. set_solver.
    + rewrite lookup_insert_ne by done. rewrite H2, H1 by done. set_solver.
Qed.

Lemma graph_has_edge_add_edge G u v a b :
  graph_wf G →
  Graph.has_edge (Graph.add_edge G u v) a b = true ↔
  Graph.has_edge G a b = true ∨ (a = u ∧ b = v) ∨ (a = v ∧ b = u).
Proof.
  intros Hwf. rewrite !graph_has_edge_nbrs, graph_add_edge_nbrs by done.
  repeat case_decide; set_solver.
Qed.

Lemma graph_add_edge_dom G u v :
  dom (Graph._node (Graph.add_edge G u v)) = {[u; v]} ∪ dom (Graph._node G).
Proof. unfold Graph.add_edge. simpl. rewrite !graph_add_node_dom. set_solver. Qed.

Lemma graph_add_edge_attr G u v m name :
  Graph.node_attr (Graph.add_edge G u v) m name = Graph.node_attr G m name.
Proof.
  transitivity (Graph.node_attr (Graph.add_node (Graph.add_node G u) v) m name);
    [done|]. by rewrite !graph_add_node_attr.
Qed.

(** A loop that adds the edge of every element of [L] it keeps: the
    edges of the result are the ones of the start and the kept ones, in
    both directions. *)
Lemma graph_scan A (keep : A → bool) (ends : A → nat * nat) (L : list A) G :
  graph_wf G →
  let G' := fold_left
    (λ G p, if keep p then Graph.add_edge G (ends p).1 (ends p).2 else G) L G in
  graph_wf G' ∧
  (∀ a b, Graph.has_edge G' a b = true ↔
     Graph.has_edge G a b = true ∨
     ∃ p, p ∈ L ∧ keep p = true ∧ (ends p = (a, b) ∨ ends p = (b, a))) ∧
  (∀ m name, Graph.node_attr G' m name = Graph.node_attr G m name) ∧
  ((∀ p, p ∈ L → (ends p).1 ∈ dom (Graph._node G) ∧ (ends p).2 ∈ dom (Graph._node G)) →
   dom (Graph._node G') = dom (Graph._node G)).
Proof.
  revert G. induction L as [|p L IH]; intros G Hwf; simpl.
  - split; [done|]. split; [|done]. intros a b. split; [auto|].
    intros [?|(p & ?%elem_of_nil & _)]; done.
  - set (G1 := if keep p then Graph.add_edge G (ends p).1 (ends p).2 else G).
    assert (graph_wf G1) as Hwf1.
    { unfold G1. destruct (keep p); [by apply graph_add_edge_wf|done]. }
    destruct (IH G1 Hwf1) as (Hw & He & Ha & Hd). split; [done|].
    split; [|split].
    + intros a b. rewrite He. unfold G1. destruct (keep p) eqn:Ek.
      * rewrite graph_has_edge_add_edge by done. split.
        -- intros [[?|Hp]|(q & Hq & Hk & Hq')]; [by left| |].
           ++ right. exists p. split; [left|]. split; [done|].
              destruct (ends p); simpl in *. naive_solver.
           ++ right. exists q. split; [by right|done].
        -- intros [?|(q & Hq & Hk & Hq')]; [by left; left|].
           apply elem_of_cons in Hq as [->|Hq].
           ++ left. right. destruct (ends p); simpl in *. naive_solver.
           ++ right. eauto.
      * split.
        -- intros [?|(q & Hq & Hk & Hq')]; [by left|].
           right. exists q. split; [by right|done].
        -- intros [?|(q & Hq & Hk & Hq')]; [by left|].
           apply elem_of_cons in Hq as [->|Hq]; [congruence|]. right. eauto.
    + intros m name. rewrite Ha. unfold G1.
      destruct (keep p); [apply graph_add_edge_attr|done].
    + intros Hin. assert (dom (Graph._node G1) = dom (Graph._node G)) as HG1.
      { unfold G1. destruct (keep p); [|done]. rewrite graph_add_edge_dom.
        destruct (Hin p) as [? ?]; [left|]. set_solver. }
      rewrite <- HG1. apply Hd. intros q Hq. rewrite HG1. apply Hin. by right.
Qed.

Lemma graph_empty_graph_dom n :
  dom (Graph._node (Graph.empty_graph (V:=V) n)) = set_seq 0 n.
Proof.
  unfold Graph.empty_graph, Graph.add_nodes_from, range.
  assert (∀ l G, dom (Graph._node (fold_left Graph.add_node l G))
                 = list_to_set l ∪ dom (Graph._node G)) as Hgen.
  { induction l as [|x l IH]; intros G; simpl; [set_solver|].
    rewrite IH, graph_add_node_dom. set_solver. }
  rewrite Hgen. simpl. rewrite dom_empty_L.
  apply set_eq. intros x. rewrite elem_of_union, elem_of_list_to_set, elem_of_set_seq.
  rewrite list_elem_of_In, in_seq. set_solver by lia.
Qed.

Lemma graph_empty_graph_wf n : graph_wf (Graph.empty_graph (V:=V) n).
Proof.
  unfold Graph.empty_graph, Graph.add_nodes_from.
  assert (∀ l G, graph_wf G → graph_wf (fold_left Graph.add_node l G)) as Hgen.
  { induction l; intros G HG; simpl; [done|]. by apply IHl, graph_add_node_wf. }
  apply Hgen. by intros m _.
Qed.

Lemma graph_empty_graph_nbrs n a : graph_nbrs (Graph.empty_graph (V:=V) n) a = ∅.
Proof.
  unfold Graph.empty_graph, Graph.add_nodes_from.
  assert (∀ l G, graph_wf G → graph_nbrs (fold_left Graph.add_node l G) a = graph_nbrs G a)
    as Hgen.
  { induction l; intros G HG; simpl; [done|].
    rewrite IHl by by apply graph_add_node_wf. by apply graph_add_node_nbrs. }
  rewrite Hgen; [done|]. by intros m _.
Qed.

Lemma graph_empty_graph_attr n m name :
  Graph.node_attr (Graph.empty_graph (V:=V) n) m name = None.
Proof.
  unfold Graph.empty_graph, Graph.add_nodes_from.
  assert (∀ l G, Graph.node_attr (fold_left Graph.add_node l G) m name
                 = Graph.node_attr G m name) as Hgen.
  { induction l; intros G; simpl; [done|]. by rewrite IHl, graph_add_node_attr. }
  rewrite Hgen. unfold Graph.node_attr. simpl. by rewrite lookup_empty.
Qed.

(** [path_graph n]: nodes [0 .. n-1], no attribute, and the edges between
    consecutive nodes. *)
Lemma graph_path_graph n :
  let G := Graph.path_graph (V:=V) n in
  graph_wf G ∧
  (∀ a b, Graph.has_edge G a b = true ↔ (b = S a ∧ b < n) ∨ (a = S b ∧ a < n)) ∧
  (∀ m name, Graph.node_attr G m name = None) ∧
  dom (Graph._node G) = set_seq 0 n.
Proof.
  unfold Graph.path_graph, Graph.add_edges_from.
  rewrite (fold_left_ext_eq _
    (λ G p, if (λ _, true) p then Graph.add_edge G (id p).1 (id p).2 else G))
    by done.
  destruct (graph_scan _ (λ _, true) id (pairwise (range n)) _ (graph_empty_graph_wf n))
    as (Hw & He & Ha & Hd).
  split; [done|]. split; [|split].
  - intros a b. rewrite He, graph_has_edge_nbrs, graph_empty_graph_nbrs. split.
    + intros [?%not_elem_of_empty|((u & v) & Hp & _ & Huv)]; [done|].
      apply elem_of_pairwise_range in Hp. unfold id in Huv. naive_solver.
    + intros [[-> ?]|[-> ?]]; right.
      * exists (a, S a). rewrite elem_of_pairwise_range. naive_solver.
      * exists (b, S b). rewrite elem_of_pairwise_range. naive_solver.
  - intros m name. by rewrite Ha, graph_empty_graph_attr.
  - rewrite Hd; [apply graph_empty_graph_dom|].
    intros (u & v) Hp%elem_of_pairwise_range. rewrite graph_empty_graph_dom.
    rewrite !elem_of_set_seq. simpl. lia.
Qed.

(** [set_node_attributes] with the items of [dict(enumerate(l, start))]:
    every node with a position in [l] gets its sample, nothing else
    changes. *)
Lemma graph_set_node_attributes G (l : list V) start name :
  let G' := Graph.set_node_attributes G (enumerate start l) name in
  Graph._adj G' = Graph._adj G ∧
  dom (Graph._node G') = dom (Graph._node G) ∧
  (∀ m, Graph.node_attr G' m name =
     if decide (m ∈ dom (Graph._node G) ∧ start ≤ m < start + length l)
     then l !! (m - start) else Graph.node_attr G m name).
Proof.
  unfold Graph.set_node_attributes.
  revert G start. induction l as [|x l IH]; intros G start; simpl.
  - split; [done|]. split; [done|]. intros m. case_decide; [lia|done].
  - set (G1 := match Graph._node G !! start with
               | Some d => Graph.mk (<[start := <[name := x]> d]> (Graph._node G)) (Graph._adj G)
               | None => G end).
    assert (Graph._adj G1 = Graph._adj G) as Hadj1
      by (unfold G1; by destruct (Graph._node G !! start)).
    assert (dom (Graph._node G1) = dom (Graph._node G)) as Hdom1.
    { unfold G1. destruct (Graph._node G !! start) eqn:E; [|done]. simpl.
      rewrite dom_insert_L.
      assert (start ∈ dom (Graph._node G)) by (apply elem_of_dom; eauto). set_solver. }
    destruct (IH G1 (S start)) as (Hadj & Hdom & Hattr).
    split; [congruence|]. split; [congruence|].
    intros m. rewrite Hattr, Hdom1.
    destruct (decide (m = start)) as [->|Hne].
    + rewrite decide_False by lia. replace (start - start) with 0 by lia. simpl.
      unfold G1, Graph.node_attr. destruct (Graph._node G !! start) eqn:E; simpl.
      * rewrite lookup_insert_eq. simpl. rewrite lookup_insert_eq.
        rewrite decide_True; [done|]. split; [|lia]. apply elem_of_dom; eauto.
      * rewrite E. simpl. rewrite decide_False; [done|].
        intros [Hd%elem_of_dom _]. rewrite E in Hd. by destruct Hd.
    + assert (Graph.node_attr G1 m name = Graph.node_attr G m name) as ->.
      { unfold G1, Graph.node_attr. destruct (Graph._node G !! start); [|done].
        simpl. by rewrite lookup_insert_ne. }
      repeat case_decide; try done; try lia.
      * destruct (m - start) as [|k] eqn:Ek; [lia|]. simpl.
        f_equal. lia.
      * exfalso. naive_solver lia.
      * exfalso. naive_solver lia.
Qed.
End graph_facts.


(** ** Facts on [DiGraph] *)

Section digraph_facts.
Context {V : Type}.
Implicit Types G : DiGraph.t V.

Lemma digraph_has_edge_succs G u v :
  DiGraph.has_edge G u v = true ↔ v ∈ digraph_succs G u.
Proof.
  unfold DiGraph.has_edge, digraph_succs. destruct (DiGraph._succ G !! u); simpl.
  - by rewrite bool_decide_eq_true.
  - split; [done|]. by intros ?%not_elem_of_empty.
Qed.

Lemma digraph_has_predecessor_preds G v u :
  DiGraph.has_predecessor G v u = true ↔ u ∈ digraph_preds G v.
Proof.
  unfold DiGraph.has_predecessor, digraph_preds. destruct (DiGraph._pred G !! v); simpl.
  - by rewrite bool_decide_eq_true.
  - split; [done|]. by intros ?%not_elem_of_empty.
Qed.

Lemma digraph_add_node_wf G n : digraph_wf G → digraph_wf (DiGraph.add_node G n).
Proof.
  intros Hwf m. unfold DiGraph.add_node. destruct (DiGraph._node G !! n) eqn:E; simpl.
  - apply Hwf.
  - destruct (decide (n = m)) as [->|]; [by rewrite lookup_insert_eq|].
    rewrite !lookup_insert_ne by done. apply Hwf.
Qed.

Lemma digraph_add_node_succs G n a :
  digraph_wf G → digraph_succs (DiGraph.add_node G n) a = digraph_succs G a.
Proof.
  intros Hwf. unfold DiGraph.add_node, digraph_succs.
  destruct (DiGraph._node G !! n) eqn:E; simpl; [done|].
  destruct (decide (n = a)) as [->|].
  - rewrite lookup_insert_eq. by destruct (Hwf _ E) as [-> _].
  - by rewrite lookup_insert_ne.
Qed.

Lemma digraph_add_node_preds G n a :
  digraph_wf G → digraph_preds (DiGraph.add_node G n) a = digraph_preds G a.
Proof.
  intros Hwf. unfold DiGraph.add_node, digraph_preds.
  destruct (DiGraph._node G !! n) eqn:E; simpl; [done|].
  destruct (decide (n = a)) as [->|].
  - rewrite lookup_insert_eq. by destruct (Hwf _ E) as [_ ->].
  - by rewrite lookup_insert_ne.
Qed.

Lemma digraph_add_node_dom G n :
  dom (DiGraph._node (DiGraph.add_node G n)) = {[n]} ∪ dom (DiGraph._node G).
Proof.
  unfold DiGraph.add_node. destruct (DiGraph._node G !! n) eqn:E; simpl.
  - assert (n ∈ dom (DiGraph._node G)) by (apply elem_of_dom; eauto). set_solver.
  - by rewrite dom_insert_L.
Qed.

Lemma digraph_add_node_attr G n m name :
  DiGraph.node_attr (DiGraph.add_node G n) m name = DiGraph.node_attr G m name.
Proof.
  unfold DiGraph.add_node, DiGraph.node_attr.
  destruct (DiGraph._node G !! n) eqn:E; simpl; [done|].
  destruct (decide (n = m)) as [->|].
  - by rewrite lookup_insert_eq, E.
  - by rewrite lookup_insert_ne.
Qed.

Lemma digraph_add_edge_wf G u v : digraph_wf G → digraph_wf (DiGraph.add_edge G u v).
Proof.
  intros Hwf m Hm. unfold DiGraph.add_edge in *. simpl in *.
  pose proof (digraph_add_node_wf _ v (digraph_add_node_wf _ u Hwf)) as Hwf'.
  assert (m ∉ dom (DiGraph._node (DiGraph.add_node (DiGraph.add_node G u) v))) as Hd
    by by apply not_elem_of_dom.
  rewrite !digraph_add_node_dom in Hd.
  rewrite !lookup_insert_ne by set_solver. by apply Hwf'.
Qed.

Lemma digraph_add_edge_succs G u v a :
  digraph_wf G →
  digraph_succs (DiGraph.add_edge G u v) a =
    digraph_succs G a ∪ (if decide (a = u) then {[v]} else ∅).
Proof.
  intros Hwf. unfold DiGraph.add_edge. unfold digraph_succs at 1. simpl.
  pose proof (digraph_add_node_succs (DiGraph.add_node G u) v) as H2.
  pose proof (digraph_add_node_succs G u) as H1.
  pose proof (digraph_add_node_wf _ u Hwf) as Hwf1.
  unfold digraph_succs in H1, H2.
  destruct (decide (a = u)) as [->|Hu].
  - rewrite lookup_insert_eq. simpl. rewrite H2, H1 by done. set_solver.
  - rewrite lookup_insert_ne by done. rewrite H2, H1 by done. set_solver.
Qed.

Lemma digraph_add_edge_preds G u v a :
  digraph_wf G →
  digraph_preds (DiGraph.add_edge G u v) a =
    digraph_preds G a ∪ (if decide (a = v) then {[u]} else ∅).
Proof.
  intros Hwf. unfold DiGraph.add_edge. unfold digraph_preds at 1. simpl.
  pose proof (digraph_add_node_preds (DiGraph.add_node G u) v) as H2.
  pose proof (digraph_add_node_preds G u) as H1.
  pose proof (digraph_add_node_wf _ u Hwf) as Hwf1.
  unfold digraph_preds in H1, H2.
  destruct (decide (a = v)) as [->|Hu].
  - rewrite lookup_insert_eq. simpl. rewrite H2, H1 by done. set_solver.
  - rewrite lookup_insert_ne by done. rewrite H2, H1 by done. set_solver.
Qed.

Lemma digraph_has_edge_add_edge G u v a b :
  digraph_wf G →
  DiGraph.has_edge (DiGraph.add_edge G u v) a b = true ↔
  DiGraph.has_edge G a b = true ∨ (a = u ∧ b = v).
Proof.
  intros Hwf. rewrite !digraph_has_edge_succs, digraph_add_edge_succs by done.
  case_decide; set_solver.
Qed.

Lemma digraph_has_predecessor_add_edge G u v a b :
  digraph_wf G →
  DiGraph.has_predecessor (DiGraph.add_edge G u v) b a = true ↔
  DiGraph.has_predecessor G b a = true ∨ (a = u ∧ b = v).
Proof.
  intros Hwf. rewrite !digraph_has_predecessor_preds, digraph_add_edge_preds by done.
  case_decide; set_solver.
Qed.

Lemma digraph_add_edge_dom G u v :
  dom (DiGraph._node (DiGraph.add_edge G u v)) = {[u; v]} ∪ dom (DiGraph._node G).
Proof. unfold DiGraph.add_edge. simpl. rewrite !digraph_add_node_dom. set_solver. Qed.

Lemma digraph_add_edge_attr G u v m name :
  DiGraph.node_attr (DiGraph.add_edge G u v) m name = DiGraph.node_attr G m name.
Proof.
  transitivity (DiGraph.node_attr (DiGraph.add_node (DiGraph.add_node G u) v) m name);
    [done|]. by rewrite !digraph_add_node_attr.
Qed.

(** The directed loop: the edges of the result are the ones of the start
    and the kept ones, each in the direction of its pair only. *)
Lemma digraph_scan A (keep : A → bool) (ends : A → nat * nat) (L : list A) G :
  digraph_wf G →
  let G' := fold_left
    (λ G p, if keep p then DiGraph.add_edge G (ends p).1 (ends p).2 else G) L G in
  digraph_wf G' ∧
  (∀ a b, DiGraph.has_edge G' a b = true ↔
     DiGraph.has_edge G a b = true ∨
     ∃ p, p ∈ L ∧ keep p = true ∧ ends p = (a, b)) ∧
  (∀ a b, DiGraph.has_predecessor G' b a = true ↔
     DiGraph.has_predecessor G b a = true ∨
     ∃ p, p ∈ L ∧ keep p = true ∧ ends p = (a, b)) ∧
  (∀ m name, DiGraph.node_attr G' m name = DiGraph.node_attr G m name) ∧
  ((∀ p, p ∈ L → (ends p).1 ∈ dom (DiGraph._node G) ∧ (ends p).2 ∈ dom (DiGraph._node G)) →
   dom (DiGraph._node G') = dom (DiGraph._node G)).
Proof.
  revert G. induction L as [|p L IH]; intros G Hwf; simpl.
  - split; [done|]. split; [|split; [|done]]; intros a b; (split; [auto|]);
      intros [?|(p & ?%elem_of_nil & _)]; done.
  - set (G1 := if keep p then DiGraph.add_edge G (ends p).1 (ends p).2 else G).
    assert (digraph_wf G1) as Hwf1.
    { unfold G1. destruct (keep p); [by apply digraph_add_edge_wf|done]. }
    destruct (IH G1 Hwf1) as (Hw & He & Hp & Ha & Hd). split; [done|].
    split; [|split; [|split]].
    + intros a b. rewrite He. unfold G1. destruct (keep p) eqn:Ek.
      * rewrite digraph_has_edge_add_edge by done. split.
        -- intros [[?|Hab]|(q & Hq & Hk & Hq')]; [by left| |].
           ++ right. exists p. split; [left|]. split; [done|].
              destruct (ends p); simpl in *. naive_solver.
           ++ right. exists q. split; [by right|done].
        -- intros [?|(q & Hq & Hk & Hq')]; [by left; left|].
           apply elem_of_cons in Hq as [->|Hq].
           ++ left. right. destruct (ends p); simpl in *. naive_solver.
           ++ right. eauto.
      * split.
        -- intros [?|(q & Hq & Hk & Hq')]; [by left|].
           right. exists q. split; [by right|done].
        -- intros [?|(q & Hq & Hk & Hq')]; [by left|].
           apply elem_of_cons in Hq as [->|Hq]; [congruence|]. right. eauto.
    + intros a b. rewrite Hp. unfold G1. destruct (keep p) eqn:Ek.
      * rewrite digraph_has_predecessor_add_edge by done. split.
        -- intros [[?|Hab]|(q & Hq & Hk & Hq')]; [by left| |].
           ++ right. exists p. split; [left|]. split; [done|].
              destruct (ends p); simpl in *. naive_solver.
           ++ right. exists q. split; [by right|done].
        -- intros [?|(q & Hq & Hk & Hq')]; [by left; left|].
           apply elem_of_cons in Hq as [->|Hq].
           ++ left. right. destruct (ends p); simpl in *. naive_solver.
           ++ right. eauto.
      * split.
        -- intros [?|(q & Hq & Hk & Hq')]; [by left|].
           right. exists q. split; [by right|done].
        -- intros [?|(q & Hq & Hk & Hq')]; [by left|].
           apply elem_of_cons in Hq as [->|Hq]; [congruence|]. right. eauto.
    + intros m name. rewrite Ha. unfold G1.
      destruct (keep p); [apply digraph_add_edge_attr|done].
    + intros Hin. assert (dom (DiGraph._node G1) = dom (DiGraph._node G)) as HG1.
      { unfold G1. destruct (keep p); [|done]. rewrite digraph_add_edge_dom.
        destruct (Hin p) as [? ?]; [left|]. set_solver. }
      rewrite <- HG1. apply Hd. intros q Hq. rewrite HG1. apply Hin. by right.
Qed.

Lemma digraph_empty_graph n :
  let G := DiGraph.empty_graph (V:=V) n in
  digraph_wf G ∧
  (∀ a, digraph_succs G a = ∅ ∧ digraph_preds G a = ∅) ∧
  (∀ m name, DiGraph.node_attr G m name = None) ∧
  dom (DiGraph._node G) = set_seq 0 n.
Proof.
  unfold DiGraph.empty_graph, DiGraph.add_nodes_from, range.
  assert (∀ l G, digraph_wf G →
    let G' := fold_left DiGraph.add_node l G in
    digraph_wf G' ∧
    (∀ a, digraph_succs G' a = digraph_succs G a ∧ digraph_preds G' a = digraph_preds G a) ∧
    (∀ m name, DiGraph.node_attr G' m name = DiGraph.node_attr G m name) ∧
    dom (DiGraph._node G') = list_to_set l ∪ dom (DiGraph._node G)) as Hgen.
  { induction l as [|x l IH]; intros G HG; simpl.
    - split; [done|]. split; [done|]. split; [done|].
      symmetry. apply (left_id_L ∅ (∪)).
    - destruct (IH _ (digraph_add_node_wf _ x HG)) as (Hw & Hs & Ha & Hd).
      split; [done|]. split; [|split].
      + intros a. destruct (Hs a) as [-> ->].
        by rewrite digraph_add_node_succs, digraph_add_node_preds.
      + intros m name. by rewrite Ha, digraph_add_node_attr.
      + rewrite Hd, digraph_add_node_dom. set_solver. }
  destruct (Hgen (seq 0 n) DiGraph.empty) as (Hw & Hs & Ha & Hd); [by intros m _|].
  split; [done|]. split; [|split].
  - intros a. destruct (Hs a) as [-> ->]. done.
  - intros m name. rewrite Ha. unfold DiGraph.node_attr. simpl. by rewrite lookup_empty.
  - rewrite Hd. simpl. rewrite dom_empty_L.
    apply set_eq. intros x. rewrite elem_of_union, elem_of_list_to_set, elem_of_set_seq.
    rewrite list_elem_of_In, in_seq. set_solver by lia.
Qed.

(** [path_graph n] on a [DiGraph]: every edge goes from a node to the
    next one. *)
Lemma digraph_path_graph n :
  let G := DiGraph.path_graph (V:=V) n in
  digraph_wf G ∧
  (∀ a b, DiGraph.has_edge G a b = true ↔ b = S a ∧ b < n) ∧
  (∀ a b, DiGraph.has_predecessor G b a = true ↔ b = S a ∧ b < n) ∧
  (∀ m name, DiGraph.node_attr G m name = None) ∧
  dom (DiGraph._node G) = set_seq 0 n.
Proof.
  unfold DiGraph.path_graph, DiGraph.add_edges_from.
  rewrite (fold_left_ext_eq _
    (λ G p, if (λ _, true) p then DiGraph.add_edge G (id p).1 (id p).2 else G))
    by done.
  destruct (digraph_empty_graph n) as (Hw0 & Hs0 & Ha0 & Hd0).
  destruct (digraph_scan _ (λ _, true) id (pairwise (range n)) _ Hw0)
    as (Hw & He & Hp & Ha & Hd).
  split; [done|]. split; [|split; [|split]].
  - intros a b. rewrite He, digraph_has_edge_succs. destruct (Hs0 a) as [-> _]. split.
    + intros [?%not_elem_of_empty|((u & v) & Hin & _ & Huv)]; [done|].
      apply elem_of_pairwise_range in Hin. unfold id in Huv. naive_solver.
    + intros [-> ?]. right.
      exists (a, S a). rewrite elem_of_pairwise_range. naive_solver.
  - intros a b. rewrite Hp, digraph_has_predecessor_preds. destruct (Hs0 b) as [_ ->]. split.
    + intros [?%not_elem_of_empty|((u & v) & Hin & _ & Huv)]; [done|].
      apply elem_of_pairwise_range in Hin. unfold id in Huv. naive_solver.
    + intros [-> ?]. right.
      exists (a, S a). rewrite elem_of_pairwise_range. naive_solver.
  - intros m name. by rewrite Ha, Ha0.
  - rewrite Hd; [done|].
    intros (u & v) Hin%elem_of_pairwise_range. rewrite Hd0.
    rewrite !elem_of_set_seq. simpl. lia.
Qed.

Lemma digraph_set_node_attributes G (l : list V) start name :
  let G' := DiGraph.set_node_attributes G (enumerate start l) name in
  DiGraph._succ G' = DiGraph._succ G ∧
  DiGraph._pred G' = DiGraph._pred G ∧
  dom (DiGraph._node G') = dom (DiGraph._node G) ∧
  (∀ m, DiGraph.node_attr G' m name =
     if decide (m ∈ dom (DiGraph._node G) ∧ start ≤ m < start + length l)
     then l !! (m - start) else DiGraph.node_attr G m name).
Proof.
  unfold DiGraph.set_node_attributes.
  revert G start. induction l as [|x l IH]; intros G start; simpl.
  - repeat split; try done. intros m. case_decide; [lia|done].
  - set (G1 := match DiGraph._node G !! start with
               | Some d => DiGraph.mk (<[start := <[name := x]> d]> (DiGraph._node G))
                             (DiGraph._succ G) (DiGraph._pred G)
               | None => G end).
    assert (DiGraph._succ G1 = DiGraph._succ G) as Hs1
      by (unfold G1; by destruct (DiGraph._node G !! start)).
    assert (DiGraph._pred G1 = DiGraph._pred G) as Hp1
      by (unfold G1; by destruct (DiGraph._node G !! start)).
    assert (dom (DiGraph._node G1) = dom (DiGraph._node G)) as Hdom1.
    { unfold G1. destruct (DiGraph._node G !! start) eqn:E; [|done]. simpl.
      rewrite dom_insert_L.
      assert (start ∈ dom (DiGraph._node G)) by (apply elem_of_dom; eauto). set_solver. }
    destruct (IH G1 (S start)) as (Hs & Hp & Hdom & Hattr).
    split; [congruence|]. split; [congruence|]. split; [congruence|].
    intros m. rewrite Hattr, Hdom1.
    destruct (decide (m = start)) as [->|Hne].
    + rewrite decide_False by lia. replace (start - start) with 0 by lia. simpl.
      unfold G1, DiGraph.node_attr. destruct (DiGraph._node G !! start) eqn:E; simpl.
      * rewrite lookup_insert_eq. simpl. rewrite lookup_insert_eq.
        rewrite decide_True; [done|]. split; [|lia]. apply elem_of_dom; eauto.
      * rewrite E. simpl. rewrite decide_False; [done|].
        intros [Hd%elem_of_dom _]. rewrite E in Hd. by destruct Hd.
    + assert (DiGraph.node_attr G1 m name = DiGraph.node_attr G m name) as ->.
      { unfold G1, DiGraph.node_attr. destruct (DiGraph._node G !! start); [|done].
        simpl. by rewrite lookup_insert_ne. }
      repeat case_decide; try done; try lia.
      * destruct (m - start) as [|k] eqn:Ek; [lia|]. simpl.
        f_equal. lia.
      * exfalso. naive_solver lia.
      * exfalso. naive_solver lia.
Qed.
End digraph_facts.

(** ** The construction shared by the three generators *)

Lemma lookup_lt_length_Some {A} (l : list A) i : i < length l → ∃ x, l !! i = Some x.
Proof. intros Hi. by apply lookup_lt_is_Some_2. Qed.

(** The undirected construction, for any obstruction test that lets two
    consecutive samples see each other: path, attributes, scan. *)
Lemma graph_build {V} (series : list V) (obs : nat → V → nat → V → bool) :
  (∀ n t1 t2, obs n t1 (S n) t2 = false) →
  let G := undirected_build series obs in
  (∀ a b, Graph.has_edge G a b = true ↔
     ∃ n1 t1 n2 t2, n1 < n2 ∧ series !! n1 = Some t1 ∧ series !! n2 = Some t2 ∧
       obs n1 t1 n2 t2 = false ∧ ((a = n1 ∧ b = n2) ∨ (a = n2 ∧ b = n1))) ∧
  (∀ m, Graph.node_attr G m "value" = series !! m) ∧
  dom (Graph._node G) = set_seq 0 (length series).
Proof.
  intros Hcons. unfold undirected_build.
  destruct (graph_path_graph (V:=V) (length series)) as (Hw0 & He0 & Ha0 & Hd0).
  destruct (graph_set_node_attributes (Graph.path_graph (length series)) series 0 "value")
    as (Hadj1 & Hd1 & Ha1).
  set (G1 := Graph.set_node_attributes _ _ _) in *.
  assert (graph_wf G1) as Hw1.
  { intros n Hn. rewrite Hadj1. apply Hw0. apply not_elem_of_dom.
    rewrite <- Hd1. by apply not_elem_of_dom. }
  rewrite (fold_left_ext_eq _
    (λ G p, if (λ p, negb (obs p.1.1 p.1.2 p.2.1 p.2.2)) p
            then Graph.add_edge G ((λ p, (p.1.1, p.2.1)) p).1 ((λ p, (p.1.1, p.2.1)) p).2
            else G))
    by (by intros G [[n1 t1] [n2 t2]]).
  destruct (graph_scan _ (λ p, negb (obs p.1.1 p.1.2 p.2.1 p.2.2))
              (λ p, (p.1.1, p.2.1)) (combinations2 (enumerate 0 series)) G1 Hw1)
    as (Hw & He & Ha & Hd).
  simpl in He, Ha, Hd |- *. split; [|split].
  - intros a b. rewrite He.
    assert (Graph.has_edge G1 a b = Graph.has_edge (Graph.path_graph (length series)) a b)
      as -> by (unfold Graph.has_edge; by rewrite Hadj1).
    rewrite He0. split.
    + intros [[[-> Hb]|[-> Hb]]|([[n1 t1] [n2 t2]] & Hin & Hk & Hends)].
      * destruct (lookup_lt_length_Some series a) as [t1 H1]; [lia|].
        destruct (lookup_lt_length_Some series (S a)) as [t2 H2]; [lia|].
        exists a, t1, (S a), t2. split; [lia|]. auto 10.
      * destruct (lookup_lt_length_Some series b) as [t1 H1]; [lia|].
        destruct (lookup_lt_length_Some series (S b)) as [t2 H2]; [lia|].
        exists b, t1, (S b), t2. split; [lia|]. auto 10.
      * apply elem_of_scan in Hin as (Hlt & H1 & H2). simpl in *.
        apply negb_true_iff in Hk.
        exists n1, t1, n2, t2. split; [done|]. do 3 (split; [done|]). naive_solver.
    + intros (n1 & t1 & n2 & t2 & Hlt & H1 & H2 & Hobs & Hab). right.
      exists ((n1, t1), (n2, t2)). rewrite elem_of_scan. simpl.
      rewrite Hobs. naive_solver.
  - intros m. rewrite Ha, Ha1, Ha0, Hd0, Nat.sub_0_r.
    case_decide as Hm; [done|]. symmetry. apply lookup_ge_None.
    rewrite elem_of_set_seq in Hm. lia.
  - rewrite Hd; [by rewrite Hd1|].
    intros [[n1 t1] [n2 t2]] (Hlt & H1 & H2)%elem_of_scan. simpl.
    rewrite Hd1, Hd0, !elem_of_set_seq.
    apply lookup_lt_Some in H1, H2. lia.
Qed.

(** The directed construction. *)
Lemma digraph_build {V} (series : list V) (obs : nat → V → nat → V → bool) :
  (∀ n t1 t2, obs n t1 (S n) t2 = false) →
  let G := directed_build series obs in
  (∀ a b, DiGraph.has_edge G a b = true ↔
     ∃ t1 t2, a < b ∧ series !! a = Some t1 ∧ series !! b = Some t2 ∧
       obs a t1 b t2 = false) ∧
  (∀ a b, DiGraph.has_predecessor G b a = DiGraph.has_edge G a b) ∧
  (∀ m, DiGraph.node_attr G m "value" = series !! m) ∧
  dom (DiGraph._node G) = set_seq 0 (length series).
Proof.
  intros Hcons. unfold directed_build.
  destruct (digraph_path_graph (V:=V) (length series)) as (Hw0 & He0 & Hp0 & Ha0 & Hd0).
  destruct (digraph_set_node_attributes (DiGraph.path_graph (length series)) series 0 "value")
    as (Hs1 & Hp1 & Hd1 & Ha1).
  set (G1 := DiGraph.set_node_attributes _ _ _) in *.
  assert (digraph_wf G1) as Hw1.
  { intros n Hn. rewrite Hs1, Hp1. apply Hw0. apply not_elem_of_dom.
    rewrite <- Hd1. by apply not_elem_of_dom. }
  rewrite (fold_left_ext_eq _
    (λ G p, if (λ p, negb (obs p.1.1 p.1.2 p.2.1 p.2.2)) p
            then DiGraph.add_edge G ((λ p, (p.1.1, p.2.1)) p).1 ((λ p, (p.1.1, p.2.1)) p).2
            else G))
    by (by intros G [[n1 t1] [n2 t2]]).
  destruct (digraph_scan _ (λ p, negb (obs p.1.1 p.1.2 p.2.1 p.2.2))
              (λ p, (p.1.1, p.2.1)) (combinations2 (enumerate 0 series)) G1 Hw1)
    as (Hw & He & Hp & Ha & Hd).
  simpl in He, Hp, Ha, Hd |- *.
  assert (∀ a b,
    (DiGraph.has_edge (DiGraph.path_graph (V:=V) (length series)) a b = true ∨
     ∃ p, p ∈ combinations2 (enumerate 0 series) ∧
          negb (obs p.1.1 p.1.2 p.2.1 p.2.2) = true ∧ (p.1.1, p.2.1) = (a, b)) ↔
    ∃ t1 t2, a < b ∧ series !! a = Some t1 ∧ series !! b = Some t2 ∧
       obs a t1 b t2 = false) as Hchar.
  { intros a b. rewrite He0. split.
    - intros [[-> Hb]|([[n1 t1] [n2 t2]] & Hin & Hk & Hends)].
      + destruct (lookup_lt_length_Some series a) as [t1 H1]; [lia|].
        destruct (lookup_lt_length_Some series (S a)) as [t2 H2]; [lia|].
        exists t1, t2. split; [lia|]. auto.
      + apply elem_of_scan in Hin as (Hlt & H1 & H2). simpl in *.
        apply negb_true_iff in Hk. simplify_eq. eauto 10.
    - intros (t1 & t2 & Hlt & H1 & H2 & Hobs). right.
      exists ((a, t1), (b, t2)). rewrite elem_of_scan. simpl.
      rewrite Hobs. naive_solver. }
  split; [|split; [|split]].
  - intros a b. rewrite He, <- Hchar.
    assert (DiGraph.has_edge G1 a b = DiGraph.has_edge (DiGraph.path_graph (length series)) a b)
      as -> by (unfold DiGraph.has_edge; by rewrite Hs1). done.
  - intros a b. apply eq_true_iff_eq. rewrite He, Hp.
    assert (DiGraph.has_edge G1 a b = DiGraph.has_edge (DiGraph.path_graph (length series)) a b)
      as -> by (unfold DiGraph.has_edge; by rewrite Hs1).
    assert (DiGraph.has_predecessor G1 b a
            = DiGraph.has_predecessor (DiGraph.path_graph (length series)) b a)
      as -> by (unfold DiGraph.has_predecessor; by rewrite Hp1).
    by rewrite He0, Hp0.
  - intros m. rewrite Ha, Ha1, Ha0, Hd0, Nat.sub_0_r.
    case_decide as Hm; [done|]. symmetry. apply lookup_ge_None.
    rewrite elem_of_set_seq in Hm. lia.
  - rewrite Hd; [by rewrite Hd1|].
    intros [[n1 t1] [n2 t2]] (Hlt & H1 & H2)%elem_of_scan. simpl.
    rewrite Hd1, Hd0, !elem_of_set_seq.
    apply lookup_lt_Some in H1, H2. lia.
Qed.

(** The seeded path survives the scan, whatever the test answers. *)
Lemma undirected_build_keeps_path {V} (series : list V) obs a b :
  Graph.has_edge (Graph.path_graph (V:=V) (length series)) a b = true →
  Graph.has_edge (undirected_build series obs) a b = true.
Proof.
  intros Hab. unfold undirected_build.
  destruct (graph_path_graph (V:=V) (length series)) as (Hw0 & _ & _ & _).
  destruct (graph_set_node_attributes (Graph.path_graph (length series)) series 0 "value")
    as (Hadj1 & Hd1 & _).
  set (G1 := Graph.set_node_attributes _ _ _) in *.
  assert (graph_wf G1) as Hw1.
  { intros n Hn. rewrite Hadj1. apply Hw0. apply not_elem_of_dom.
    rewrite <- Hd1. by apply not_elem_of_dom. }
  rewrite (fold_left_ext_eq _
    (λ G p, if (λ p, negb (obs p.1.1 p.1.2 p.2.1 p.2.2)) p
            then Graph.add_edge G ((λ p, (p.1.1, p.2.1)) p).1 ((λ p, (p.1.1, p.2.1)) p).2
            else G))
    by (by intros G [[n1 t1] [n2 t2]]).
  destruct (graph_scan _ (λ p, negb (obs p.1.1 p.1.2 p.2.1 p.2.2))
              (λ p, (p.1.1, p.2.1)) (combinations2 (enumerate 0 series)) G1 Hw1)
    as (_ & He & _ & _).
  apply He. left. unfold Graph.has_edge in *. by rewrite Hadj1.
Qed.

Lemma directed_build_keeps_path {V} (series : list V) obs a b :
  DiGraph.has_edge (DiGraph.path_graph (V:=V) (length series)) a b = true →
  DiGraph.has_edge (directed_build series obs) a b = true.
Proof.
  intros Hab. unfold directed_build.
  destruct (digraph_path_graph (V:=V) (length series)) as (Hw0 & _ & _ & _ & _).
  destruct (digraph_set_node_attributes (DiGraph.path_graph (length series)) series 0 "value")
    as (Hs1 & Hp1 & Hd1 & _).
  set (G1 := DiGraph.set_node_attributes _ _ _) in *.
  assert (digraph_wf G1) as Hw1.
  { intros n Hn. rewrite Hs1, Hp1. apply Hw0. apply not_elem_of_dom.
    rewrite <- Hd1. by apply not_elem_of_dom. }
  rewrite (fold_left_ext_eq _
    (λ G p, if (λ p, negb (obs p.1.1 p.1.2 p.2.1 p.2.2)) p
            then DiGraph.add_edge G ((λ p, (p.1.1, p.2.1)) p).1 ((λ p, (p.1.1, p.2.1)) p).2
            else G))
    by (by intros G [[n1 t1] [n2 t2]]).
  destruct (digraph_scan _ (λ p, negb (obs p.1.1 p.1.2 p.2.1 p.2.2))
              (λ p, (p.1.1, p.2.1)) (combinations2 (enumerate 0 series)) G1 Hw1)
    as (_ & He & _ & _ & _).
  apply He. left. unfold DiGraph.has_edge in *. by rewrite Hs1.
Qed.

(** ** The generators as instances of the loop, and their tests *)

Section natural_facts.
Context {T : Type} `{Number T}.
Implicit Types series : list T.

Lemma visibility_graph_build series :
  visibility_graph series = undirected_build series (natural_obstructed series).
Proof. reflexivity. Qed.

Lemma natural_obstructed_consecutive series n t1 t2 :
  natural_obstructed series n t1 (S n) t2 = false.
Proof. unfold natural_obstructed. by rewrite interior_consecutive. Qed.

Lemma natural_obstructed_true series n1 t1 n2 t2 :
  natural_obstructed series n1 t1 n2 t2 = true ↔
  ∃ k tk, n1 < k < n2 ∧ series !! k = Some tk ∧
    let slope :=
      num_truediv (num_sub t2 t1) (num_of_int (Z.of_nat n2 - Z.of_nat n1)) in
    let offset := num_sub t2 (num_mul slope (num_of_int (Z.of_nat n2))) in
    num_ge tk (num_add (num_mul slope (num_of_int (Z.of_nat k))) offset) = true.
Proof.
  unfold natural_obstructed. rewrite existsb_exists. split.
  - intros ([k tk] & Hin & Hge). apply list_elem_of_In, elem_of_interior in Hin.
    exists k, tk. naive_solver.
  - intros (k & tk & Hk & Hl & Hge). exists (k, tk).
    split; [|done]. apply list_elem_of_In, elem_of_interior. done.
Qed.
End natural_facts.

Section horizontal_facts.
Context {T : Type} `{Comparable T}.
Implicit Types timeseries : list T.

Lemma horizontal_visibility_graph_build timeseries :
  horizontal_visibility_graph timeseries
  = undirected_build timeseries (horizontal_obstructed timeseries).
Proof. reflexivity. Qed.

Lemma directed_horizontal_visibility_graph_build timeseries :
  directed_horizontal_visibility_graph timeseries
  = directed_build timeseries (horizontal_obstructed timeseries).
Proof. reflexivity. Qed.

Lemma horizontal_obstructed_consecutive timeseries n t1 t2 :
  horizontal_obstructed timeseries n t1 (S n) t2 = false.
Proof. unfold horizontal_obstructed. by rewrite interior_consecutive. Qed.

Lemma horizontal_obstructed_true timeseries n1 t1 n2 t2 :
  horizontal_obstructed timeseries n1 t1 n2 t2 = true ↔
  ∃ k tk, n1 < k < n2 ∧ timeseries !! k = Some tk ∧
    num_ge tk (py_max t1 t2) = true.
Proof.
  unfold horizontal_obstructed. rewrite existsb_exists. split.
  - intros ([k tk] & Hin & Hge). apply list_elem_of_In, elem_of_interior in Hin.
    exists k, tk. naive_solver.
  - intros (k & tk & Hk & Hl & Hge). exists (k, tk).
    split; [|done]. apply list_elem_of_In, elem_of_interior. done.
Qed.
End horizontal_facts.

(** An undirected edge is stored at both of its ends. *)
Lemma undirected_build_sym {V} (series : list V) obs a b :
  (∀ n t1 t2, obs n t1 (S n) t2 = false) →
  Graph.has_edge (undirected_build series obs) b a
  = Graph.has_edge (undirected_build series obs) a b.
Proof.
  intros Hcons. destruct (graph_build series obs Hcons) as (He & _).
  apply eq_true_iff_eq. rewrite !He. naive_solver.
Qed.

(** ** The claims *)

(** C1: in the graph of [visibility_graph], two positions [i < j] of the
    series are joined exactly when no sample strictly between them lies on
    or above the line through the two, [slope] and [offset] being computed
    as the code computes them; the edge is there from both ends. *)
Theorem visibility_graph_edge_iff {T} `{Number T} (series : list T) i j ti tj :
  i < j → series !! i = Some ti → series !! j = Some tj →
  let slope := num_truediv (num_sub tj ti) (num_of_int (Z.of_nat j - Z.of_nat i)) in
  let offset := num_sub tj (num_mul slope (num_of_int (Z.of_nat j))) in
  (Graph.has_edge (visibility_graph series) i j = true ↔
   ∀ k tk, i < k < j → series !! k = Some tk →
     num_ge tk (num_add (num_mul slope (num_of_int (Z.of_nat k))) offset) = false) ∧
  Graph.has_edge (visibility_graph series) j i
  = Graph.has_edge (visibility_graph series) i j.
Proof.
  intros Hij Hi Hj slope offset. rewrite visibility_graph_build.
  split; [|apply undirected_build_sym, natural_obstructed_consecutive].
  destruct (graph_build series (natural_obstructed series)
              (natural_obstructed_consecutive series)) as (He & _).
  rewrite He. split.
  - intros (n1 & t1 & n2 & t2 & Hlt & H1 & H2 & Hobs & [[-> ->]|[-> ->]]); [|lia].
    simplify_eq. intros k tk Hk Hl. apply not_true_iff_false. intros Hge.
    apply not_true_iff_false in Hobs. apply Hobs, natural_obstructed_true.
    exists k, tk. done.
  - intros Hall. exists i, ti, j, tj. do 3 (split; [done|]). split; [|by left].
    apply not_true_iff_false. intros (k & tk & Hk & Hl & Hge)%natural_obstructed_true.
    pose proof (Hall k tk Hk Hl) as Hno. subst slope offset.
    cbv zeta in Hge. congruence.
Qed.

Lemma visibility_graph_edge_iff_witness :
  let series := [1; 0; 2]%Q in
  0 < 2 ∧ series !! 0 = Some 1%Q ∧ series !! 2 = Some 2%Q ∧
  (Graph.has_edge (visibility_graph series) 0 2 = true ↔
   ∀ k tk, 0 < k < 2 → series !! k = Some tk →
     num_ge tk (num_add (num_mul
        (num_truediv (num_sub 2%Q 1%Q) (num_of_int (Z.of_nat 2 - Z.of_nat 0)))
        (num_of_int (Z.of_nat k)))
        (num_sub 2%Q (num_mul
           (num_truediv (num_sub 2%Q 1%Q) (num_of_int (Z.of_nat 2 - Z.of_nat 0)))
           (num_of_int (Z.of_nat 2))))) = false).
Proof.
  intros series. split; [lia|]. split; [reflexivity|]. split; [reflexivity|].
  destruct (visibility_graph_edge_iff series 0 2 1%Q 2%Q) as [Hiff _];
    [lia|reflexivity|reflexivity|]. exact Hiff.
Defined.

(** C2: in the graph of [horizontal_visibility_graph], two positions
    [i < j] are joined exactly when no sample strictly between them
    reaches [max(series[i], series[j])]; the edge is there from both
    ends. *)
Theorem horizontal_visibility_graph_edge_iff {T} `{Comparable T}
    (timeseries : list T) i j ti tj :
  i < j → timeseries !! i = Some ti → timeseries !! j = Some tj →
  (Graph.has_edge (horizontal_visibility_graph timeseries) i j = true ↔
   ∀ k tk, i < k < j → timeseries !! k = Some tk →
     num_ge tk (py_max ti tj) = false) ∧
  Graph.has_edge (horizontal_visibility_graph timeseries) j i
  = Graph.has_edge (horizontal_visibility_graph timeseries) i j.
Proof.
  intros Hij Hi Hj. rewrite horizontal_visibility_graph_build.
  split; [|apply undirected_build_sym, horizontal_obstructed_consecutive].
  destruct (graph_build timeseries (horizontal_obstructed timeseries)
              (horizontal_obstructed_consecutive timeseries)) as (He & _).
  rewrite He. split.
  - intros (n1 & t1 & n2 & t2 & Hlt & H1 & H2 & Hobs & [[-> ->]|[-> ->]]); [|lia].
    simplify_eq. intros k tk Hk Hl. apply not_true_iff_false. intros Hge.
    apply not_true_iff_false in Hobs. apply Hobs, horizontal_obstructed_true.
    exists k, tk. done.
  - intros Hall. exists i, ti, j, tj. do 3 (split; [done|]). split; [|by left].
    apply not_true_iff_false. intros (k & tk & Hk & Hl & Hge)%horizontal_obstructed_true.
    by rewrite (Hall k tk Hk Hl) in Hge.
Qed.

Lemma horizontal_visibility_graph_edge_iff_witness :
  0 < 2 ∧ periodic !! 0 = Some 2%Z ∧ periodic !! 2 = Some 3%Z ∧
  (Graph.has_edge (horizontal_visibility_graph periodic) 0 2 = true ↔
   ∀ k tk, 0 < k < 2 → periodic !! k = Some tk →
     num_ge tk (py_max 2%Z 3%Z) = false).
Proof.
  split; [lia|]. split; [reflexivity|]. split; [reflexivity|].
  destruct (horizontal_visibility_graph_edge_iff periodic 0 2 2%Z 3%Z) as [Hiff _];
    [lia|reflexivity|reflexivity|]. exact Hiff.
Defined.

(** C3: every edge of the graph of [directed_horizontal_visibility_graph]
    goes from a position of the series to a later one, and is recorded so
    on both sides (successors and predecessors); the reverse edge is never
    there. *)
Theorem directed_edges_point_forward {T} `{Comparable T} (timeseries : list T) u v :
  DiGraph.has_edge (directed_horizontal_visibility_graph timeseries) u v = true →
  u < v ∧
  DiGraph.has_edge (directed_horizontal_visibility_graph timeseries) v u = false ∧
  DiGraph.has_predecessor (directed_horizontal_visibility_graph timeseries) v u = true ∧
  DiGraph.has_predecessor (directed_horizontal_visibility_graph timeseries) u v = false.
Proof.
  rewrite directed_horizontal_visibility_graph_build.
  destruct (digraph_build timeseries (horizontal_obstructed timeseries)
              (horizontal_obstructed_consecutive timeseries)) as (He & Hp & _).
  intros Huv. pose proof Huv as (t1 & t2 & Hlt & _)%He.
  split; [done|]. split; [|split].
  - apply not_true_iff_false. intros (? & ? & ? & _)%He. lia.
  - by rewrite Hp.
  - rewrite Hp. apply not_true_iff_false. intros (? & ? & ? & _)%He. lia.
Qed.

Lemma directed_edges_point_forward_witness :
  DiGraph.has_edge (directed_horizontal_visibility_graph periodic) 2 5 = true ∧
  2 < 5 ∧
  DiGraph.has_edge (directed_horizontal_visibility_graph periodic) 5 2 = false.
Proof.
  split; [reflexivity|].
  destruct (directed_edges_point_forward periodic 2 5) as (Hlt & Hrev & _);
    [reflexivity|]. split; [exact Hlt|exact Hrev].
Defined.

(** C4: for a series of at least two samples, every two consecutive
    positions are joined in the seeded path, the scan keeps that edge
    whatever the obstruction test answers, and so the three generators
    return a graph that has it. *)
Theorem consecutive_samples_are_joined {T} `{Number T} (series : list T) i :
  S i < length series →
  (Graph.has_edge (Graph.path_graph (V:=T) (length series)) i (S i) = true ∧
   DiGraph.has_edge (DiGraph.path_graph (V:=T) (length series)) i (S i) = true) ∧
  (∀ obs, Graph.has_edge (undirected_build series obs) i (S i) = true ∧
          Graph.has_edge (undirected_build series obs) (S i) i = true ∧
          DiGraph.has_edge (directed_build series obs) i (S i) = true) ∧
  (Graph.has_edge (visibility_graph series) i (S i) = true ∧
   Graph.has_edge (visibility_graph series) (S i) i = true) ∧
  (Graph.has_edge (horizontal_visibility_graph series) i (S i) = true ∧
   Graph.has_edge (horizontal_visibility_graph series) (S i) i = true) ∧
  DiGraph.has_edge (directed_horizontal_visibility_graph series) i (S i) = true.
Proof.
  intros Hi.
  destruct (graph_path_graph (V:=T) (length series)) as (_ & He & _).
  destruct (digraph_path_graph (V:=T) (length series)) as (_ & Hd & _).
  assert (Graph.has_edge (Graph.path_graph (V:=T) (length series)) i (S i) = true)
    as Hfwd by (apply He; left; done).
  assert (Graph.has_edge (Graph.path_graph (V:=T) (length series)) (S i) i = true)
    as Hbwd by (apply He; right; done).
  assert (DiGraph.has_edge (DiGraph.path_graph (V:=T) (length series)) i (S i) = true)
    as Hdir by (apply Hd; done).
  assert (∀ obs, Graph.has_edge (undirected_build series obs) i (S i) = true ∧
                 Graph.has_edge (undirected_build series obs) (S i) i = true ∧
                 DiGraph.has_edge (directed_build series obs) i (S i) = true) as Hany.
  { intros obs. split; [|split].
    - by apply undirected_build_keeps_path.
    - by apply undirected_build_keeps_path.
    - by apply directed_build_keeps_path. }
  split; [done|]. split; [done|].
  rewrite visibility_graph_build, horizontal_visibility_graph_build,
    directed_horizontal_visibility_graph_build.
  split; [|split].
  - destruct (Hany (natural_obstructed series)) as (? & ? & _). done.
  - destruct (Hany (horizontal_obstructed series)) as (? & ? & _). done.
  - destruct (Hany (horizontal_obstructed series)) as (_ & _ & ?). done.
Qed.

Lemma consecutive_samples_are_joined_witness :
  S 3 < length ramp ∧
  Graph.has_edge (visibility_graph ramp) 3 (S 3) = true ∧
  Graph.has_edge (horizontal_visibility_graph ramp) 3 (S 3) = true ∧
  DiGraph.has_edge (directed_horizontal_visibility_graph ramp) 3 (S 3) = true.
Proof.
  assert (S 3 < length ramp) as Hlen by (vm_compute; lia).
  split; [exact Hlen|].
  destruct (consecutive_samples_are_joined ramp 3 Hlen)
    as (_ & _ & (Hn & _) & (Hh & _) & Hd).
  split; [exact Hn|]. split; [exact Hh|exact Hd].
Defined.

Lemma size_set_seq_0 n : size (set_seq (C:=gset nat) 0 n) = n.
Proof.
  induction n as [|n IH]; [done|].
  rewrite set_seq_S_end_union_L, size_union, size_singleton, IH; [simpl; lia|].
  apply disjoint_singleton_l. rewrite elem_of_set_seq. lia.
Qed.

(** C5: the graph each generator returns has the positions of the series
    as its nodes, as many as the series has samples, and the attribute
    [value] of node [i] is [series[i]] (and is missing exactly where the
    series has no such position). *)
Theorem nodes_are_the_samples :
  (∀ T (N : Number T) (series : list T),
     Graph.number_of_nodes (visibility_graph series) = length series ∧
     dom (Graph._node (visibility_graph series)) = set_seq 0 (length series) ∧
     ∀ i, Graph.node_attr (visibility_graph series) i "value" = series !! i) ∧
  (∀ T (C : Comparable T) (series : list T),
     Graph.number_of_nodes (horizontal_visibility_graph series) = length series ∧
     dom (Graph._node (horizontal_visibility_graph series)) = set_seq 0 (length series) ∧
     ∀ i, Graph.node_attr (horizontal_visibility_graph series) i "value" = series !! i) ∧
  (∀ T (C : Comparable T) (series : list T),
     DiGraph.number_of_nodes (directed_horizontal_visibility_graph series)
     = length series ∧
     dom (DiGraph._node (directed_horizontal_visibility_graph series))
     = set_seq 0 (length series) ∧
     ∀ i, DiGraph.node_attr (directed_horizontal_visibility_graph series) i "value"
          = series !! i).
Proof.
  split; [|split]; intros T ? series.
  - rewrite visibility_graph_build.
    destruct (graph_build series (natural_obstructed series)
                (natural_obstructed_consecutive series)) as (_ & Ha & Hd).
    unfold Graph.number_of_nodes. by rewrite <- size_dom, Hd, size_set_seq_0.
  - rewrite horizontal_visibility_graph_build.
    destruct (graph_build series (horizontal_obstructed series)
                (horizontal_obstructed_consecutive series)) as (_ & Ha & Hd).
    unfold Graph.number_of_nodes. by rewrite <- size_dom, Hd, size_set_seq_0.
  - rewrite directed_horizontal_visibility_graph_build.
    destruct (digraph_build series (horizontal_obstructed series)
                (horizontal_obstructed_consecutive series)) as (_ & _ & Ha & Hd).
    unfold DiGraph.number_of_nodes. by rewrite <- size_dom, Hd, size_set_seq_0.
Qed.

(** C6, on the code as it is: in [[0, 5, 10]] the middle sample lies on the
    line from the first to the last, which obstructs the natural test, and
    below [max(0, 10)], which does not obstruct the horizontal one; the
    horizontal graph has the edge between 0 and 2, the natural graph has
    not.  So it is for a list of [int] and for exact rationals. *)
Theorem horizontal_edge_missing_from_natural :
  (Graph.has_edge (horizontal_visibility_graph (map PyInt [0; 5; 10]%Z)) 0 2 = true ∧
   Graph.has_edge (visibility_graph (map PyInt [0; 5; 10]%Z)) 0 2 = false) ∧
  (Graph.has_edge (horizontal_visibility_graph [0; 5; 10]%Q) 0 2 = true ∧
   Graph.has_edge (visibility_graph [0; 5; 10]%Q) 0 2 = false).
Proof. by vm_compute. Qed.

(** C7: two positions are joined in the graph of
    [horizontal_visibility_graph] exactly when the graph of
    [directed_horizontal_visibility_graph] has an edge between them, in
    one direction or the other. *)
Theorem directed_is_oriented_horizontal {T} `{Comparable T} (timeseries : list T) u v :
  Graph.has_edge (horizontal_visibility_graph timeseries) u v
  = DiGraph.has_edge (directed_horizontal_visibility_graph timeseries) u v
    || DiGraph.has_edge (directed_horizontal_visibility_graph timeseries) v u.
Proof.
  rewrite horizontal_visibility_graph_build, directed_horizontal_visibility_graph_build.
  destruct (graph_build timeseries (horizontal_obstructed timeseries)
              (horizontal_obstructed_consecutive timeseries)) as (He & _).
  destruct (digraph_build timeseries (horizontal_obstructed timeseries)
              (horizontal_obstructed_consecutive timeseries)) as (Hd & _).
  apply eq_true_iff_eq. rewrite orb_true_iff, He, !Hd. split.
  - intros (n1 & t1 & n2 & t2 & Hlt & H1 & H2 & Hobs & [[-> ->]|[-> ->]]).
    + left. eauto 10.
    + right. eauto 10.
  - intros [(t1 & t2 & Hlt & H1 & H2 & Hobs)|(t1 & t2 & Hlt & H1 & H2 & Hobs)].
    + exists u, t1, v, t2. auto 10.
    + exists v, t1, u, t2. auto 10.
Qed.

(** C8: on [range(10)] the natural variant returns ten nodes and nine
    edges, the ones of the path and no other: every sample strictly
    between two positions lies on their line, which obstructs. *)
Theorem visibility_graph_ramp :
  Graph.number_of_nodes (visibility_graph ramp) = 10 ∧
  Graph.number_of_edges (visibility_graph ramp) = 9 ∧
  forallb (λ '((n1, t1), (n2, t2)),
             implb (S n1 <? n2) (natural_obstructed ramp n1 t1 n2 t2))
          (combinations2 (enumerate 0 ramp)) = true ∧
  ∀ a b, Graph.has_edge (visibility_graph ramp) a b = true ↔
         (b = S a ∧ b < 10) ∨ (a = S b ∧ a < 10).
Proof.
  split; [by vm_compute|]. split; [by vm_compute|]. split; [by vm_compute|].
  assert (forallb (λ a, forallb (λ b,
            eqb (Graph.has_edge (visibility_graph ramp) a b)
                ((b =? S a) || (a =? S b))) (seq 0 10)) (seq 0 10) = true) as Htab
    by (by vm_compute).
  assert (∀ a b, a < 10 → b < 10 →
            Graph.has_edge (visibility_graph ramp) a b = (b =? S a) || (a =? S b)) as Hin.
  { intros a b Ha Hb. rewrite forallb_forall in Htab.
    specialize (Htab a). rewrite forallb_forall in Htab.
    apply eqb_prop, Htab; apply in_seq; lia. }
  intros a b. split.
  - intros Hab. assert (a < 10 ∧ b < 10) as [Ha Hb].
    { pose proof Hab as Hab'. rewrite visibility_graph_build in Hab'.
      destruct (graph_build ramp (natural_obstructed ramp)
                  (natural_obstructed_consecutive ramp)) as (He & _).
      apply He in Hab' as (n1 & t1 & n2 & t2 & _ & H1%lookup_lt_Some
                           & H2%lookup_lt_Some & _ & Hends).
      change (length ramp) with 10 in H1, H2. lia. }
    rewrite Hin in Hab by done.
    apply orb_true_iff in Hab as [?%Nat.eqb_eq|?%Nat.eqb_eq]; lia.
  - intros [[-> ?]|[-> ?]]; rewrite Hin by lia; apply orb_true_iff.
    + left. by apply Nat.eqb_eq.
    + right. by apply Nat.eqb_eq.
Qed.

(** C9, on the code as it is: on the periodic series of twelve samples the
    horizontal variant returns twelve nodes and twenty-one edges, not
    eighteen; so does the directed variant. *)
Theorem horizontal_visibility_graph_periodic :
  Graph.number_of_nodes (horizontal_visibility_graph periodic) = 12 ∧
  Graph.number_of_edges (horizontal_visibility_graph periodic) = 21 ∧
  DiGraph.number_of_edges (directed_horizontal_visibility_graph periodic) = 21.
Proof. by vm_compute. Qed.

(** The figure the docstring of [visibility_graph] gives for the same
    series, eighteen edges, is the one the natural variant returns. *)
Lemma visibility_graph_periodic :
  Graph.number_of_nodes (visibility_graph (map PyInt periodic)) = 12 ∧
  Graph.number_of_edges (visibility_graph (map PyInt periodic)) = 18.
Proof. by vm_compute. Qed.

(** Three of the edges behind the twenty-one: a sample of height 3 sees
    past a 2 to the 1 behind it, since only [max] of the two ends is
    compared with what lies between. *)
Lemma horizontal_visibility_graph_periodic_extra :
  Graph.has_edge (horizontal_visibility_graph periodic) 2 4 = true ∧
  Graph.has_edge (horizontal_visibility_graph periodic) 5 7 = true ∧
  Graph.has_edge (horizontal_visibility_graph periodic) 8 10 = true.
Proof. by vm_compute. Qed.

(** ** Translation of the samples *)

Lemma undirected_build_map {V W} (f : V → W) (series : list V) obs obs' a b :
  (∀ n t1 t2, obs n t1 (S n) t2 = false) →
  (∀ n t1 t2, obs' n t1 (S n) t2 = false) →
  (∀ n1 t1 n2 t2, obs' n1 (f t1) n2 (f t2) = obs n1 t1 n2 t2) →
  Graph.has_edge (undirected_build (f <$> series) obs') a b
  = Graph.has_edge (undirected_build series obs) a b.
Proof.
  intros Hc Hc' Hobs.
  destruct (graph_build series obs Hc) as (He & _).
  destruct (graph_build (f <$> series) obs' Hc') as (He' & _).
  apply eq_true_iff_eq. rewrite He, He'. split.
  - intros (n1 & t1 & n2 & t2 & Hlt & H1 & H2 & Ho & Hab).
    rewrite list_lookup_fmap in H1, H2.
    apply fmap_Some in H1 as (s1 & H1 & ->), H2 as (s2 & H2 & ->).
    rewrite Hobs in Ho. exists n1, s1, n2, s2. done.
  - intros (n1 & t1 & n2 & t2 & Hlt & H1 & H2 & Ho & Hab).
    exists n1, (f t1), n2, (f t2). rewrite !list_lookup_fmap, H1, H2, Hobs. done.
Qed.

Lemma directed_build_map {V W} (f : V → W) (series : list V) obs obs' a b :
  (∀ n t1 t2, obs n t1 (S n) t2 = false) →
  (∀ n t1 t2, obs' n t1 (S n) t2 = false) →
  (∀ n1 t1 n2 t2, obs' n1 (f t1) n2 (f t2) = obs n1 t1 n2 t2) →
  DiGraph.has_edge (directed_build (f <$> series) obs') a b
  = DiGraph.has_edge (directed_build series obs) a b.
Proof.
  intros Hc Hc' Hobs.
  destruct (digraph_build series obs Hc) as (He & _).
  destruct (digraph_build (f <$> series) obs' Hc') as (He' & _).
  apply eq_true_iff_eq. rewrite He, He'. split.
  - intros (t1 & t2 & Hlt & H1 & H2 & Ho).
    rewrite list_lookup_fmap in H1, H2.
    apply fmap_Some in H1 as (s1 & H1 & ->), H2 as (s2 & H2 & ->).
    rewrite Hobs in Ho. exists s1, s2. done.
  - intros (t1 & t2 & Hlt & H1 & H2 & Ho).
    exists (f t1), (f t2). rewrite !list_lookup_fmap, H1, H2, Hobs. done.
Qed.

Lemma Qle_bool_line_shift (t1 t2 c d k n2 t : Q) :
  Qle_bool (((t2 + c) - (t1 + c)) / d * k + ((t2 + c) - ((t2 + c) - (t1 + c)) / d * n2))
           (t + c)
  = Qle_bool ((t2 - t1) / d * k + (t2 - (t2 - t1) / d * n2)) t.
Proof.
  apply eq_true_iff_eq. rewrite !Qle_bool_iff.
  assert (((t2 + c) - (t1 + c)) / d * k + ((t2 + c) - ((t2 + c) - (t1 + c)) / d * n2)
          == ((t2 - t1) / d * k + (t2 - (t2 - t1) / d * n2)) + c)%Q as ->
    by (unfold Qdiv; ring).
  split; intros Hle; lra.
Qed.

Lemma py_max_shift_Q (t1 t2 c t : Q) :
  num_ge (t + c)%Q (py_max (t1 + c)%Q (t2 + c)%Q) = num_ge t (py_max t1 t2).
Proof.
  unfold py_max. simpl.
  assert (Qle_bool (t2 + c) (t1 + c) = Qle_bool t2 t1) as ->.
  { apply eq_true_iff_eq. rewrite !Qle_bool_iff. split; intros; lra. }
  destruct (Qle_bool t2 t1); simpl;
    apply eq_true_iff_eq; rewrite !Qle_bool_iff; split; intros; lra.
Qed.

Lemma py_max_shift_Z (t1 t2 c t : Z) :
  num_ge (t + c)%Z (py_max (t1 + c)%Z (t2 + c)%Z) = num_ge t (py_max t1 t2).
Proof.
  unfold py_max. simpl.
  destruct (Z.ltb_spec (t1 + c) (t2 + c)), (Z.ltb_spec t1 t2); try lia;
    apply eq_true_iff_eq; rewrite !Z.leb_le; lia.
Qed.

Lemma natural_obstructed_shift (series : list Q) (c : Q) n1 t1 n2 t2 :
  natural_obstructed ((λ t, t + c)%Q <$> series) n1 (t1 + c)%Q n2 (t2 + c)%Q
  = natural_obstructed series n1 t1 n2 t2.
Proof.
  apply eq_true_iff_eq. rewrite !natural_obstructed_true. split.
  - intros (k & tk & Hk & Hl & Hge). rewrite list_lookup_fmap in Hl.
    apply fmap_Some in Hl as (s & Hl & ->). exists k, s. split; [done|]. split; [done|].
    simpl in *. by rewrite Qle_bool_line_shift in Hge.
  - intros (k & tk & Hk & Hl & Hge). exists k, (tk + c)%Q. split; [done|].
    rewrite list_lookup_fmap, Hl. split; [done|].
    simpl in *. by rewrite Qle_bool_line_shift.
Qed.

Lemma horizontal_obstructed_shift_Q (series : list Q) (c : Q) n1 t1 n2 t2 :
  horizontal_obstructed ((λ t, t + c)%Q <$> series) n1 (t1 + c)%Q n2 (t2 + c)%Q
  = horizontal_obstructed series n1 t1 n2 t2.
Proof.
  apply eq_true_iff_eq. rewrite !horizontal_obstructed_true. split.
  - intros (k & tk & Hk & Hl & Hge). rewrite list_lookup_fmap in Hl.
    apply fmap_Some in Hl as (s & Hl & ->). exists k, s. split; [done|]. split; [done|].
    by rewrite py_max_shift_Q in Hge.
  - intros (k & tk & Hk & Hl & Hge). exists k, (tk + c)%Q. split; [done|].
    rewrite list_lookup_fmap, Hl. split; [done|]. by rewrite py_max_shift_Q.
Qed.

Lemma horizontal_obstructed_shift_Z (series : list Z) (c : Z) n1 t1 n2 t2 :
  horizontal_obstructed ((λ t, t + c)%Z <$> series) n1 (t1 + c)%Z n2 (t2 + c)%Z
  = horizontal_obstructed series n1 t1 n2 t2.
Proof.
  apply eq_true_iff_eq. rewrite !horizontal_obstructed_true. split.
  - intros (k & tk & Hk & Hl & Hge). rewrite list_lookup_fmap in Hl.
    apply fmap_Some in Hl as (s & Hl & ->). exists k, s. split; [done|]. split; [done|].
    by rewrite py_max_shift_Z in Hge.
  - intros (k & tk & Hk & Hl & Hge). exists k, (tk + c)%Z. split; [done|].
    rewrite list_lookup_fmap, Hl. split; [done|]. by rewrite py_max_shift_Z.
Qed.

(** A list of [int] is scanned by the horizontal test as its elements
    compare: the two ways of reading an [int] agree. *)
Lemma horizontal_obstructed_PyInt (series : list Z) n1 t1 n2 t2 :
  horizontal_obstructed (PyInt <$> series) n1 (PyInt t1) n2 (PyInt t2)
  = horizontal_obstructed series n1 t1 n2 t2.
Proof.
  apply eq_true_iff_eq. rewrite !horizontal_obstructed_true.
  assert (∀ tk, num_ge (PyInt tk) (py_max (PyInt t1) (PyInt t2))
                = num_ge tk (py_max t1 t2)) as Hge.
  { intros tk. unfold py_max. simpl. by destruct (t1 <? t2)%Z. }
  split.
  - intros (k & tk & Hk & Hl & Hk'). rewrite list_lookup_fmap in Hl.
    apply fmap_Some in Hl as (s & Hl & ->). exists k, s. by rewrite <- Hge.
  - intros (k & tk & Hk & Hl & Hk'). exists k, (PyInt tk).
    by rewrite list_lookup_fmap, Hl, Hge.
Qed.

Lemma horizontal_graphs_PyInt (series : list Z) u v :
  Graph.has_edge (horizontal_visibility_graph (PyInt <$> series)) u v
  = Graph.has_edge (horizontal_visibility_graph series) u v ∧
  DiGraph.has_edge (directed_horizontal_visibility_graph (PyInt <$> series)) u v
  = DiGraph.has_edge (directed_horizontal_visibility_graph series) u v.
Proof.
  rewrite !horizontal_visibility_graph_build,
    !directed_horizontal_visibility_graph_build.
  split.
  - apply undirected_build_map; intros;
      auto using horizontal_obstructed_consecutive, horizontal_obstructed_PyInt.
  - apply directed_build_map; intros;
      auto using horizontal_obstructed_consecutive, horizontal_obstructed_PyInt.
Qed.

(** C10, as the code has it: on a list of [int] the natural variant works
    in binary64, and adding 1 to every sample of [third_slope] moves the
    rounding of the line from position 1 to position 7: before, the sample
    at position 4 is found below the line and the edge is there; after, it
    is found on the line and the edge is gone. *)
Lemma translation_moves_natural_edge :
  Graph.has_edge (visibility_graph third_slope) 1 7 = true ∧
  Graph.has_edge
    (visibility_graph (map (λ t, num_add t (PyInt 1)) third_slope)) 1 7 = false.
Proof. by vm_compute. Qed.

(** On a list of [float] the sum itself rounds: [2^-60] and [0] are
    apart, [2^-60 + 1] and [0 + 1] are both [1.0], and the horizontal edge
    between positions 0 and 2 of [tiny_step] is lost by adding 1. *)
Lemma translation_moves_horizontal_edge_of_floats :
  Graph.has_edge (horizontal_visibility_graph tiny_step) 0 2 = true ∧
  Graph.has_edge
    (horizontal_visibility_graph (map (λ t, num_add t (PyInt 1)) tiny_step)) 0 2
  = false.
Proof. by vm_compute. Qed.

(** C10, amended: adding one constant to every sample changes no edge of
    the three generators when the samples are exact rationals, and no edge
    of the two horizontal generators when the samples are [int] (read as
    integers, or as Python numbers). *)
Theorem edges_invariant_under_translation :
  (∀ (series : list Q) (c : Q) u v,
     Graph.has_edge (visibility_graph (map (λ t, t + c)%Q series)) u v
     = Graph.has_edge (visibility_graph series) u v ∧
     Graph.has_edge (horizontal_visibility_graph (map (λ t, t + c)%Q series)) u v
     = Graph.has_edge (horizontal_visibility_graph series) u v ∧
     DiGraph.has_edge (directed_horizontal_visibility_graph (map (λ t, t + c)%Q series)) u v
     = DiGraph.has_edge (directed_horizontal_visibility_graph series) u v) ∧
  (∀ (series : list Z) (c : Z) u v,
     Graph.has_edge (horizontal_visibility_graph (map (λ t, t + c)%Z series)) u v
     = Graph.has_edge (horizontal_visibility_graph series) u v ∧
     DiGraph.has_edge (directed_horizontal_visibility_graph (map (λ t, t + c)%Z series)) u v
     = DiGraph.has_edge (directed_horizontal_visibility_graph series) u v) ∧
  (∀ (series : list Z) (c : Z) u v,
     Graph.has_edge
       (horizontal_visibility_graph
          (map (λ t, num_add t (PyInt c)) (map PyInt series))) u v
     = Graph.has_edge (horizontal_visibility_graph (map PyInt series)) u v ∧
     DiGraph.has_edge
       (directed_horizontal_visibility_graph
          (map (λ t, num_add t (PyInt c)) (map PyInt series))) u v
     = DiGraph.has_edge (directed_horizontal_visibility_graph (map PyInt series)) u v).
Proof.
  assert (∀ (series : list Z) (c : Z) u v,
     Graph.has_edge (horizontal_visibility_graph (map (λ t, t + c)%Z series)) u v
     = Graph.has_edge (horizontal_visibility_graph series) u v ∧
     DiGraph.has_edge (directed_horizontal_visibility_graph (map (λ t, t + c)%Z series)) u v
     = DiGraph.has_edge (directed_horizontal_visibility_graph series) u v) as HZ.
  { intros series c u v.
    rewrite !horizontal_visibility_graph_build,
      !directed_horizontal_visibility_graph_build.
    change (map (λ t, t + c)%Z series) with ((λ t, t + c)%Z <$> series).
    split.
    + apply undirected_build_map; intros;
        auto using horizontal_obstructed_consecutive, horizontal_obstructed_shift_Z.
    + apply directed_build_map; intros;
        auto using horizontal_obstructed_consecutive, horizontal_obstructed_shift_Z. }
  split; [|split; [exact HZ|]].
  - intros series c u v.
    rewrite !visibility_graph_build, !horizontal_visibility_graph_build,
      !directed_horizontal_visibility_graph_build.
    change (map (λ t, t + c)%Q series) with ((λ t, t + c)%Q <$> series).
    split; [|split].
    + apply undirected_build_map; intros;
        auto using natural_obstructed_consecutive, natural_obstructed_shift.
    + apply undirected_build_map; intros;
        auto using horizontal_obstructed_consecutive, horizontal_obstructed_shift_Q.
    + apply directed_build_map; intros;
        auto using horizontal_obstructed_consecutive, horizontal_obstructed_shift_Q.
  - intros series c u v.
    assert (map (λ t, num_add t (PyInt c)) (map PyInt series)
            = PyInt <$> (map (λ t, t + c)%Z series)) as ->.
    { rewrite map_map. unfold fmap. simpl. by rewrite map_map. }
    change (map PyInt series) with (PyInt <$> series).
    destruct (horizontal_graphs_PyInt (map (λ t, t + c)%Z series) u v) as [-> ->].
    destruct (horizontal_graphs_PyInt series u v) as [-> ->].
    apply HZ.
Qed.

(** ** The two tests compared, on exact rationals *)

(** Between the two ends the line stays below the higher end. *)
Lemma Q_line_below_max (t1 t2 : Q) (n1 k n2 : nat) :
  n1 < k < n2 →
  let slope := ((t2 - t1) / inject_Z (Z.of_nat n2 - Z.of_nat n1))%Q in
  let offset := (t2 - slope * inject_Z (Z.of_nat n2))%Q in
  (slope * inject_Z (Z.of_nat k) + offset <= py_max t1 t2)%Q.
Proof.
  intros Hk slope offset.
  set (d := inject_Z (Z.of_nat n2 - Z.of_nat n1)) in *.
  set (m := (inject_Z (Z.of_nat n2) - inject_Z (Z.of_nat k))%Q).
  assert (0 < m)%Q as Hm.
  { unfold m. rewrite <- (Qplus_opp_r (inject_Z (Z.of_nat k))).
    apply Qplus_lt_l. rewrite <- Zlt_Qlt. lia. }
  assert (0 < d - m)%Q as Hdm.
  { unfold d, m, Z.sub. rewrite inject_Z_plus, inject_Z_opp.
    assert (inject_Z (Z.of_nat n1) < inject_Z (Z.of_nat k))%Q
      by (rewrite <- Zlt_Qlt; lia). lra. }
  assert (0 < d)%Q as Hd by lra.
  assert (d * slope == t2 - t1)%Q as Hs by (unfold slope; field; lra).
  assert (d * (slope * inject_Z (Z.of_nat k) + offset) == (d - m) * t2 + m * t1)%Q as Hline.
  { unfold offset.
    assert (slope * inject_Z (Z.of_nat k) + (t2 - slope * inject_Z (Z.of_nat n2))
            == t2 - slope * m)%Q as -> by (unfold m; ring).
    assert (d * (t2 - slope * m) == d * t2 - (d * slope) * m)%Q as -> by ring.
    rewrite Hs. ring. }
  assert (t1 <= py_max t1 t2 ∧ t2 <= py_max t1 t2)%Q as [H1 H2].
  { unfold py_max. simpl. destruct (Qle_bool t2 t1) eqn:E; simpl.
    - apply Qle_bool_iff in E. split; lra.
    - split; [|lra]. destruct (Qlt_le_dec t1 t2) as [?|Hle]; [lra|].
      apply Qle_bool_iff in Hle. congruence. }
  apply (Qmult_le_l _ _ d Hd). rewrite Hline.
  assert (0 <= (d - m) * (py_max t1 t2 - t2))%Q by (apply Qmult_le_0_compat; lra).
  assert (0 <= m * (py_max t1 t2 - t1))%Q by (apply Qmult_le_0_compat; lra).
  lra.
Qed.

(** What reaches [max] of the two ends reaches the line between them. *)
Lemma horizontal_obstructed_natural_obstructed (series : list Q) n1 t1 n2 t2 :
  horizontal_obstructed series n1 t1 n2 t2 = true →
  natural_obstructed series n1 t1 n2 t2 = true.
Proof.
  rewrite horizontal_obstructed_true, natural_obstructed_true.
  intros (k & tk & Hk & Hl & Hge). exists k, tk. split; [done|]. split; [done|].
  simpl in *. apply Qle_bool_iff. apply Qle_bool_iff in Hge.
  eapply Qle_trans; [|exact Hge]. by apply Q_line_below_max.
Qed.

(** On the code as it is the inclusion of C6 holds the other way round:
    every edge of the natural graph is an edge of the horizontal graph. *)
Lemma natural_edges_are_horizontal_edges (series : list Q) u v :
  Graph.has_edge (visibility_graph series) u v = true →
  Graph.has_edge (horizontal_visibility_graph series) u v = true.
Proof.
  rewrite visibility_graph_build, horizontal_visibility_graph_build.
  destruct (graph_build series (natural_obstructed series)
              (natural_obstructed_consecutive series)) as (Hn & _).
  destruct (graph_build series (horizontal_obstructed series)
              (horizontal_obstructed_consecutive series)) as (Hh & _).
  rewrite Hn, Hh.
  intros (n1 & t1 & n2 & t2 & Hlt & H1 & H2 & Hobs & Hab).
  exists n1, t1, n2, t2. do 3 (split; [done|]). split; [|done].
  apply not_true_iff_false. intros Hho%horizontal_obstructed_natural_obstructed.
  congruence.
Qed.

(** ** Further properties of the three generators *)

(** X1: none of the three generators ever joins a position to itself. *)
Theorem no_self_loops :
  (∀ T (N : Number T) (series : list T) u,
     Graph.has_edge (visibility_graph series) u u = false) ∧
  (∀ T (C : Comparable T) (series : list T) u,
     Graph.has_edge (horizontal_visibility_graph series) u u = false ∧
     DiGraph.has_edge (directed_horizontal_visibility_graph series) u u = false).
Proof.
  split; intros T ? series u.
  - rewrite visibility_graph_build.
    destruct (graph_build series (natural_obstructed series)
                (natural_obstructed_consecutive series)) as (He & _).
    apply not_true_iff_false. rewrite He.
    intros (n1 & t1 & n2 & t2 & Hlt & _ & _ & _ & [[-> ->]|[-> ->]]); lia.
  - rewrite horizontal_visibility_graph_build,
      directed_horizontal_visibility_graph_build.
    destruct (graph_build series (horizontal_obstructed series)
                (horizontal_obstructed_consecutive series)) as (He & _).
    destruct (digraph_build series (horizontal_obstructed series)
                (horizontal_obstructed_consecutive series)) as (Hd & _).
    split; apply not_true_iff_false.
    + rewrite He.
      intros (n1 & t1 & n2 & t2 & Hlt & _ & _ & _ & [[-> ->]|[-> ->]]); lia.
    + rewrite Hd. intros (t1 & t2 & Hlt & _). lia.
Qed.

(** X2: an edge never has an end that is not a position of the series:
    with [k] any offset past the end, neither [len(series) + k] nor any
    node paired with it is joined. *)
Theorem no_edge_past_the_end :
  (∀ T (N : Number T) (series : list T) k w,
     Graph.has_edge (visibility_graph series) (length series + k) w = false ∧
     Graph.has_edge (visibility_graph series) w (length series + k) = false) ∧
  (∀ T (C : Comparable T) (series : list T) k w,
     Graph.has_edge (horizontal_visibility_graph series) (length series + k) w = false ∧
     Graph.has_edge (horizontal_visibility_graph series) w (length series + k) = false ∧
     DiGraph.has_edge (directed_horizontal_visibility_graph series)
       (length series + k) w = false ∧
     DiGraph.has_edge (directed_horizontal_visibility_graph series)
       w (length series + k) = false).
Proof.
  split; intros T ? series k w.
  - rewrite visibility_graph_build.
    destruct (graph_build series (natural_obstructed series)
                (natural_obstructed_consecutive series)) as (He & _).
    split; apply not_true_iff_false; rewrite He;
      intros (n1 & t1 & n2 & t2 & Hlt & H1%lookup_lt_Some & H2%lookup_lt_Some
              & _ & [[? ?]|[? ?]]); lia.
  - rewrite horizontal_visibility_graph_build,
      directed_horizontal_visibility_graph_build.
    destruct (graph_build series (horizontal_obstructed series)
                (horizontal_obstructed_consecutive series)) as (He & _).
    destruct (digraph_build series (horizontal_obstructed series)
                (horizontal_obstructed_consecutive series)) as (Hd & _).
    split; [|split; [|split]]; apply not_true_iff_false.
    + rewrite He.
      intros (n1 & t1 & n2 & t2 & Hlt & H1%lookup_lt_Some & H2%lookup_lt_Some
              & _ & [[? ?]|[? ?]]); lia.
    + rewrite He.
      intros (n1 & t1 & n2 & t2 & Hlt & H1%lookup_lt_Some & H2%lookup_lt_Some
              & _ & [[? ?]|[? ?]]); lia.
    + rewrite Hd. intros (t1 & t2 & Hlt & H1%lookup_lt_Some & H2%lookup_lt_Some & _). lia.
    + rewrite Hd. intros (t1 & t2 & Hlt & H1%lookup_lt_Some & H2%lookup_lt_Some & _). lia.
Qed.

(** X3: the empty series and a series of one sample are not errors: the
    three generators return the graph with no node, respectively with the
    one node 0 carrying the sample, and no edge. *)
Theorem short_series_have_no_edge :
  (∀ T (N : Number T),
     Graph.number_of_nodes (visibility_graph (@nil T)) = 0 ∧
     Graph.number_of_edges (visibility_graph (@nil T)) = 0 ∧
     ∀ t : T,
       Graph.number_of_nodes (visibility_graph [t]) = 1 ∧
       Graph.number_of_edges (visibility_graph [t]) = 0 ∧
       Graph.node_attr (visibility_graph [t]) 0 "value" = Some t) ∧
  (∀ T (C : Comparable T),
     Graph.number_of_nodes (horizontal_visibility_graph (@nil T)) = 0 ∧
     Graph.number_of_edges (horizontal_visibility_graph (@nil T)) = 0 ∧
     DiGraph.number_of_nodes (directed_horizontal_visibility_graph (@nil T)) = 0 ∧
     DiGraph.number_of_edges (directed_horizontal_visibility_graph (@nil T)) = 0 ∧
     ∀ t : T,
       Graph.number_of_nodes (horizontal_visibility_graph [t]) = 1 ∧
       Graph.number_of_edges (horizontal_visibility_graph [t]) = 0 ∧
       Graph.node_attr (horizontal_visibility_graph [t]) 0 "value" = Some t ∧
       DiGraph.number_of_nodes (directed_horizontal_visibility_graph [t]) = 1 ∧
       DiGraph.number_of_edges (directed_horizontal_visibility_graph [t]) = 0 ∧
       DiGraph.node_attr (directed_horizontal_visibility_graph [t]) 0 "value" = Some t).
Proof.
  split; intros T ?.
  - split; [by vm_compute|]. split; [by vm_compute|]. intros t. by vm_compute.
  - do 4 (split; [by vm_compute|]). intros t. by vm_compute.
Qed.

(** X4: the two undirected graphs are symmetric: whatever the two nodes,
    the edge is seen from one exactly when it is seen from the other. *)
Theorem undirected_graphs_are_symmetric :
  (∀ T (N : Number T) (series : list T) u v,
     Graph.has_edge (visibility_graph series) u v
     = Graph.has_edge (visibility_graph series) v u) ∧
  (∀ T (C : Comparable T) (series : list T) u v,
     Graph.has_edge (horizontal_visibility_graph series) u v
     = Graph.has_edge (horizontal_visibility_graph series) v u).
Proof.
  split; intros T ? series u v.
  - rewrite visibility_graph_build.
    apply undirected_build_sym, natural_obstructed_consecutive.
  - rewrite horizontal_visibility_graph_build.
    apply undirected_build_sym, horizontal_obstructed_consecutive.
Qed.

(** X5: the directed graph is the forward half of the undirected
    horizontal one: it has the edge from [u] to [v] exactly when [u < v]
    and the undirected graph joins the two; and [v] then lists [u] as a
    predecessor. *)
Theorem directed_is_forward_half (T : Type) (C : Comparable T)
    (timeseries : list T) u v :
  DiGraph.has_edge (directed_horizontal_visibility_graph timeseries) u v
  = (u <? v) && Graph.has_edge (horizontal_visibility_graph timeseries) u v ∧
  DiGraph.has_predecessor (directed_horizontal_visibility_graph timeseries) v u
  = DiGraph.has_edge (directed_horizontal_visibility_graph timeseries) u v.
Proof.
  rewrite horizontal_visibility_graph_build, directed_horizontal_visibility_graph_build.
  destruct (graph_build timeseries (horizontal_obstructed timeseries)
              (horizontal_obstructed_consecutive timeseries)) as (He & _).
  destruct (digraph_build timeseries (horizontal_obstructed timeseries)
              (horizontal_obstructed_consecutive timeseries)) as (Hd & Hp & _).
  split; [|apply Hp].
  apply eq_true_iff_eq. rewrite andb_true_iff, Nat.ltb_lt, He, Hd. split.
  - intros (t1 & t2 & Hlt & H1 & H2 & Hobs). split; [done|].
    exists u, t1, v, t2. auto 10.
  - intros (Hlt & n1 & t1 & n2 & t2 & Hlt' & H1 & H2 & Hobs & [[-> ->]|[-> ->]]); [|lia].
    eauto 10.
Qed.

(** *** The horizontal graphs depend on the order of the samples only *)

Lemma horizontal_obstructed_order {V W} {CV : Comparable V} {CW : Comparable W}
    (f : V → W) (series : list V) n1 t1 n2 t2 :
  (∀ a b, num_ge (f a) (f b) = num_ge a b) →
  (∀ a b, num_gt (f a) (f b) = num_gt a b) →
  horizontal_obstructed (f <$> series) n1 (f t1) n2 (f t2)
  = horizontal_obstructed series n1 t1 n2 t2.
Proof.
  intros Hge Hgt. apply eq_true_iff_eq. rewrite !horizontal_obstructed_true.
  assert (py_max (f t1) (f t2) = f (py_max t1 t2)) as Hmax.
  { unfold py_max. rewrite Hgt. by destruct (num_gt t2 t1). }
  split.
  - intros (k & tk & Hk & Hl & Hk'). rewrite list_lookup_fmap in Hl.
    apply fmap_Some in Hl as (s & Hl & ->). exists k, s.
    by rewrite Hmax, Hge in Hk'.
  - intros (k & tk & Hk & Hl & Hk'). exists k, (f tk).
    by rewrite list_lookup_fmap, Hl, Hmax, Hge.
Qed.

(** X6: replacing every sample by its image under a map that keeps [>=]
    and [>] as they are (a change of unit, of number type, any strictly
    increasing recoding) changes no edge of the two horizontal graphs. *)
Theorem horizontal_graphs_depend_on_order {V W} {CV : Comparable V}
    {CW : Comparable W} (f : V → W) (timeseries : list V) u v :
  (∀ a b, num_ge (f a) (f b) = num_ge a b) →
  (∀ a b, num_gt (f a) (f b) = num_gt a b) →
  Graph.has_edge (horizontal_visibility_graph (map f timeseries)) u v
  = Graph.has_edge (horizontal_visibility_graph timeseries) u v ∧
  DiGraph.has_edge (directed_horizontal_visibility_graph (map f timeseries)) u v
  = DiGraph.has_edge (directed_horizontal_visibility_graph timeseries) u v.
Proof.
  intros Hge Hgt.
  change (map f timeseries) with (f <$> timeseries).
  rewrite !horizontal_visibility_graph_build,
    !directed_horizontal_visibility_graph_build.
  split.
  - apply undirected_build_map; intros;
      auto using horizontal_obstructed_consecutive, horizontal_obstructed_order.
  - apply directed_build_map; intros;
      auto using horizontal_obstructed_consecutive, horizontal_obstructed_order.
Qed.

Lemma horizontal_graphs_depend_on_order_witness :
  (∀ a b : Z, num_ge (PyInt a) (PyInt b) = num_ge a b) ∧
  (∀ a b : Z, num_gt (PyInt a) (PyInt b) = num_gt a b) ∧
  Graph.has_edge (horizontal_visibility_graph (map PyInt periodic)) 2 4
  = Graph.has_edge (horizontal_visibility_graph periodic) 2 4.
Proof.
  split; [reflexivity|]. split; [reflexivity|].
  destruct (horizontal_graphs_depend_on_order PyInt periodic 2 4) as [Hu _];
    [reflexivity|reflexivity|]. exact Hu.
Defined.

(** *** The natural graph of exact rationals *)

Lemma Qle_bool_line_affine (a c t1 t2 d k n2 t : Q) :
  (0 < a)%Q →
  Qle_bool (((a * t2 + c) - (a * t1 + c)) / d * k
            + ((a * t2 + c) - ((a * t2 + c) - (a * t1 + c)) / d * n2))
           (a * t + c)
  = Qle_bool ((t2 - t1) / d * k + (t2 - (t2 - t1) / d * n2)) t.
Proof.
  intros Ha. apply eq_true_iff_eq. rewrite !Qle_bool_iff.
  assert (((a * t2 + c) - (a * t1 + c)) / d * k
          + ((a * t2 + c) - ((a * t2 + c) - (a * t1 + c)) / d * n2)
          == a * ((t2 - t1) / d * k + (t2 - (t2 - t1) / d * n2)) + c)%Q as ->
    by (unfold Qdiv; ring).
  rewrite Qplus_le_l. apply Qmult_le_l. done.
Qed.

Lemma natural_obstructed_affine (series : list Q) (a c : Q) n1 t1 n2 t2 :
  (0 < a)%Q →
  natural_obstructed ((λ t, a * t + c)%Q <$> series) n1 (a * t1 + c)%Q n2 (a * t2 + c)%Q
  = natural_obstructed series n1 t1 n2 t2.
Proof.
  intros Ha. apply eq_true_iff_eq. rewrite !natural_obstructed_true. split.
  - intros (k & tk & Hk & Hl & Hge). rewrite list_lookup_fmap in Hl.
    apply fmap_Some in Hl as (s & Hl & ->). exists k, s. split; [done|]. split; [done|].
    simpl in *. by rewrite Qle_bool_line_affine in Hge.
  - intros (k & tk & Hk & Hl & Hge). exists k, (a * tk + c)%Q. split; [done|].
    rewrite list_lookup_fmap, Hl. split; [done|].
    simpl in *. by rewrite Qle_bool_line_affine.
Qed.

(** X7: on exact rationals the natural graph is unchanged by a rescaling
    of the samples by a positive factor followed by a shift. *)
Theorem natural_graph_invariant_under_affine_map (series : list Q) (a c : Q) u v :
  (0 < a)%Q →
  Graph.has_edge (visibility_graph (map (λ t, a * t + c)%Q series)) u v
  = Graph.has_edge (visibility_graph series) u v.
Proof.
  intros Ha. change (map (λ t, a * t + c)%Q series) with ((λ t, a * t + c)%Q <$> series).
  rewrite !visibility_graph_build.
  apply undirected_build_map; intros;
    auto using natural_obstructed_consecutive, natural_obstructed_affine.
Qed.

Lemma natural_graph_invariant_under_affine_map_witness :
  (0 < 2)%Q ∧
  Graph.has_edge (visibility_graph (map (λ t, 2 * t + 1)%Q [1; 0; 2]%Q)) 0 2
  = Graph.has_edge (visibility_graph [1; 0; 2]%Q) 0 2.
Proof.
  assert (0 < 2)%Q as Hpos by reflexivity.
  split; [exact Hpos|].
  exact (natural_graph_invariant_under_affine_map [1; 0; 2]%Q 2 1 0 2 Hpos).
Defined.

Lemma Q_of_nat_sub (n1 n2 : nat) :
  (inject_Z (Z.of_nat n2 - Z.of_nat n1)
   == inject_Z (Z.of_nat n2) - inject_Z (Z.of_nat n1))%Q.
Proof. unfold Z.sub. by rewrite inject_Z_plus, inject_Z_opp. Qed.

Lemma Q_of_nat_lt (n1 n2 : nat) :
  n1 < n2 → (inject_Z (Z.of_nat n1) < inject_Z (Z.of_nat n2))%Q.
Proof. intros Hlt. rewrite <- Zlt_Qlt. lia. Qed.

(** X8: on exact rationals a series whose samples lie on one line,
    [a + b * i] at position [i], gets the path and nothing else from the
    natural variant: whatever the slope, every sample between two
    positions lies on their line and obstructs. *)
Theorem natural_graph_of_a_linear_series (a b : Q) (n : nat) u v :
  Graph.has_edge
    (visibility_graph (map (λ i, a + b * inject_Z (Z.of_nat i))%Q (range n))) u v = true
  ↔ (v = S u ∧ v < n) ∨ (u = S v ∧ u < n).
Proof.
  set (series := map _ _).
  assert (∀ i t, series !! i = Some t ↔ i < n ∧ t = (a + b * inject_Z (Z.of_nat i))%Q)
    as Hlook.
  { intros i t. unfold series, range.
    change (map ?f ?l) with (f <$> l). rewrite list_lookup_fmap, fmap_Some. split.
    - intros (j & Hj%lookup_seq & ->). destruct Hj as [-> ?]. done.
    - intros [Hi ->]. exists i. split; [|done]. apply lookup_seq. done. }
  rewrite visibility_graph_build.
  destruct (graph_build series (natural_obstructed series)
              (natural_obstructed_consecutive series)) as (He & _).
  rewrite He.
  assert (∀ n1 t1 n2 t2, n1 < n2 → series !! n1 = Some t1 → series !! n2 = Some t2 →
            (natural_obstructed series n1 t1 n2 t2 = false ↔ n2 = S n1)) as Hobs.
  { intros n1 t1 n2 t2 Hlt (H1 & ->)%Hlook (H2 & ->)%Hlook. split.
    - intros Hno. destruct (decide (n2 = S n1)) as [|Hne]; [done|].
      apply not_true_iff_false in Hno. destruct Hno.
      apply natural_obstructed_true. exists (S n1), (a + b * inject_Z (Z.of_nat (S n1)))%Q.
      split; [lia|]. split; [apply Hlook; split; [lia|done]|].
      simpl. apply Qle_bool_iff. rewrite Q_of_nat_sub.
      pose proof (Q_of_nat_lt n1 n2 Hlt).
      set (x1 := inject_Z (Z.of_nat n1)) in *. set (x2 := inject_Z (Z.of_nat n2)) in *.
      set (k := inject_Z (Z.of_nat (S n1))).
      assert ((a + b * x2 - (a + b * x1)) / (x2 - x1) == b)%Q as -> by (field; lra).
      lra.
    - intros ->. apply natural_obstructed_consecutive. }
  split.
  - intros (n1 & t1 & n2 & t2 & Hlt & H1 & H2 & Hno & Hab).
    apply (Hobs n1 t1 n2 t2 Hlt H1 H2) in Hno as ->.
    apply Hlook in H2 as [H2 _]. naive_solver.
  - intros [[-> Hv]|[-> Hu]].
    + exists u, (a + b * inject_Z (Z.of_nat u))%Q, (S u),
        (a + b * inject_Z (Z.of_nat (S u)))%Q.
      split; [lia|]. split; [apply Hlook; split; [lia|done]|].
      split; [apply Hlook; split; [lia|done]|].
      split; [apply natural_obstructed_consecutive|by left].
    + exists v, (a + b * inject_Z (Z.of_nat v))%Q, (S v),
        (a + b * inject_Z (Z.of_nat (S v)))%Q.
      split; [lia|]. split; [apply Hlook; split; [lia|done]|].
      split; [apply Hlook; split; [lia|done]|].
      split; [apply natural_obstructed_consecutive|by right].
Qed.

(** *** Edges and the two tests, pair by pair *)

Lemma natural_edge_unobstructed {T} `{Number T} (series : list T) i j ti tj :
  i < j → series !! i = Some ti → series !! j = Some tj →
  Graph.has_edge (visibility_graph series) i j = negb (natural_obstructed series i ti j tj).
Proof.
  intros Hij Hi Hj. rewrite visibility_graph_build.
  destruct (graph_build series (natural_obstructed series)
              (natural_obstructed_consecutive series)) as (He & _).
  apply eq_true_iff_eq. rewrite He, negb_true_iff. split.
  - intros (n1 & t1 & n2 & t2 & Hlt & H1 & H2 & Hobs & [[-> ->]|[-> ->]]); [|lia].
    by simplify_eq.
  - intros Hobs. exists i, ti, j, tj. auto 10.
Qed.

Lemma horizontal_edge_unobstructed {T} `{Comparable T} (series : list T) i j ti tj :
  i < j → series !! i = Some ti → series !! j = Some tj →
  Graph.has_edge (horizontal_visibility_graph series) i j
  = negb (horizontal_obstructed series i ti j tj) ∧
  DiGraph.has_edge (directed_horizontal_visibility_graph series) i j
  = negb (horizontal_obstructed series i ti j tj).
Proof.
  intros Hij Hi Hj.
  rewrite horizontal_visibility_graph_build, directed_horizontal_visibility_graph_build.
  destruct (graph_build series (horizontal_obstructed series)
              (horizontal_obstructed_consecutive series)) as (He & _).
  destruct (digraph_build series (horizontal_obstructed series)
              (horizontal_obstructed_consecutive series)) as (Hd & _).
  split; apply eq_true_iff_eq; rewrite negb_true_iff.
  - rewrite He. split.
    + intros (n1 & t1 & n2 & t2 & Hlt & H1 & H2 & Hobs & [[-> ->]|[-> ->]]); [|lia].
      by simplify_eq.
    + intros Hobs. exists i, ti, j, tj. auto 10.
  - rewrite Hd. split.
    + intros (t1 & t2 & Hlt & H1 & H2 & Hobs). by simplify_eq.
    + intros Hobs. exists ti, tj. auto.
Qed.

(** Strictly between the two ends, a sample below both ends is below the
    line. *)
Lemma Q_below_both_ends_below_line (t1 t2 tk : Q) (n1 k n2 : nat) :
  n1 < k < n2 → (tk < t1)%Q → (tk < t2)%Q →
  let slope := ((t2 - t1) / inject_Z (Z.of_nat n2 - Z.of_nat n1))%Q in
  let offset := (t2 - slope * inject_Z (Z.of_nat n2))%Q in
  (tk < slope * inject_Z (Z.of_nat k) + offset)%Q.
Proof.
  intros Hk Hk1 Hk2 slope offset.
  pose proof (Q_of_nat_lt n1 k (proj1 Hk)) as Hlo.
  pose proof (Q_of_nat_lt k n2 (proj2 Hk)) as Hhi.
  assert (slope == (t2 - t1) / (inject_Z (Z.of_nat n2) - inject_Z (Z.of_nat n1)))%Q as Hs
    by (unfold slope; by rewrite Q_of_nat_sub).
  unfold offset. rewrite Hs. clear Hs slope offset.
  set (x1 := inject_Z (Z.of_nat n1)) in *. set (x2 := inject_Z (Z.of_nat n2)) in *.
  set (x := inject_Z (Z.of_nat k)) in *.
  assert (0 < x2 - x1)%Q as Hd by lra.
  apply (Qmult_lt_l _ _ (x2 - x1) Hd).
  assert ((x2 - x1) * ((t2 - t1) / (x2 - x1) * x + (t2 - (t2 - t1) / (x2 - x1) * x2))
          == (x - x1) * t2 + (x2 - x) * t1)%Q as -> by (field; lra).
  assert (0 < (x - x1) * (t2 - tk))%Q by (apply Qmult_lt_0_compat; lra).
  assert (0 < (x2 - x) * (t1 - tk))%Q by (apply Qmult_lt_0_compat; lra).
  lra.
Qed.

(** X9: on exact rationals, two positions whose interior samples all lie
    strictly below both of them are joined by the three generators. *)
Theorem samples_below_both_ends_do_not_block (series : list Q) i j (ti tj : Q) :
  i < j → series !! i = Some ti → series !! j = Some tj →
  (∀ k tk, i < k < j → series !! k = Some tk → (tk < ti)%Q ∧ (tk < tj)%Q) →
  Graph.has_edge (visibility_graph series) i j = true ∧
  Graph.has_edge (horizontal_visibility_graph series) i j = true ∧
  DiGraph.has_edge (directed_horizontal_visibility_graph series) i j = true.
Proof.
  intros Hij Hi Hj Hbelow.
  rewrite (natural_edge_unobstructed series i j ti tj) by done.
  destruct (horizontal_edge_unobstructed series i j ti tj) as [-> ->]; [done..|].
  assert (horizontal_obstructed series i ti j tj = false) as ->.
  { apply not_true_iff_false. intros (k & tk & Hk & Hl & Hge)%horizontal_obstructed_true.
    destruct (Hbelow k tk Hk Hl) as [H1 H2].
    unfold py_max in Hge. simpl in Hge.
    destruct (negb (Qle_bool tj ti)); apply Qle_bool_iff in Hge; lra. }
  assert (natural_obstructed series i ti j tj = false) as ->; [|done].
  apply not_true_iff_false. intros (k & tk & Hk & Hl & Hge)%natural_obstructed_true.
  destruct (Hbelow k tk Hk Hl) as [H1 H2].
  simpl in Hge. apply Qle_bool_iff in Hge.
  pose proof (Q_below_both_ends_below_line ti tj tk i k j Hk H1 H2) as Hlt.
  simpl in Hlt. lra.
Qed.

Lemma samples_below_both_ends_do_not_block_witness :
  let series := [3; 1; 0; 2]%Q in
  0 < 3 ∧ series !! 0 = Some 3%Q ∧ series !! 3 = Some 2%Q ∧
  Graph.has_edge (visibility_graph series) 0 3 = true ∧
  Graph.has_edge (horizontal_visibility_graph series) 0 3 = true.
Proof.
  intros series.
  assert (∀ k tk, 0 < k < 3 → series !! k = Some tk → (tk < 3)%Q ∧ (tk < 2)%Q) as Hb.
  { intros k tk Hk Hl. destruct k as [|[|[|k]]]; try lia;
      simpl in Hl; injection Hl as <-; split; reflexivity. }
  split; [lia|]. split; [reflexivity|]. split; [reflexivity|].
  destruct (samples_below_both_ends_do_not_block series 0 3 3%Q 2%Q)
    as (Hn & Hh & _); [lia|reflexivity|reflexivity|exact Hb|].
  split; [exact Hn|exact Hh].
Defined.

(** *** Counting edges *)

Lemma fst_map_to_list_seq {A} (m : gmap nat A) N :
  dom m = set_seq 0 N → (map_to_list m).*1 ≡ₚ seq 0 N.
Proof.
  intros Hdom. apply NoDup_Permutation.
  - apply NoDup_fst_map_to_list.
  - apply NoDup_seq.
  - intros x. rewrite elem_of_seq.
    assert (x ∈ (map_to_list m).*1 ↔ x ∈ dom m) as ->.
    { rewrite dom_alt, elem_of_list_to_set. done. }
    rewrite Hdom, elem_of_set_seq. done.
Qed.

Lemma sum_list_map_with {A} (f : A → nat) (l : list A) :
  sum_list (map f l) = sum_list_with f l.
Proof. induction l; simpl; auto. Qed.

Lemma sum_list_with_ext_in {A} (f g : A → nat) (l : list A) :
  (∀ x, x ∈ l → f x = g x) → sum_list_with f l = sum_list_with g l.
Proof.
  induction l as [|x l IH]; intros Hfg; simpl; [done|].
  rewrite (Hfg x) by left. rewrite IH; [done|]. intros y Hy. apply Hfg. by right.
Qed.

(** The sum of the degrees over the nodes [0 .. N-1], however the node
    dict lists them. *)
Lemma sum_over_nodes {A} (m : gmap nat A) N (f g : nat → nat) :
  dom m = set_seq 0 N → (∀ n, n < N → f n = g n) →
  sum_list (map f (map fst (map_to_list m))) = sum_list_with g (seq 0 N).
Proof.
  intros Hdom Hfg. rewrite sum_list_map_with.
  change (map fst (map_to_list m)) with ((map_to_list m).*1).
  rewrite (fst_map_to_list_seq m N Hdom).
  apply sum_list_with_ext_in. intros n Hn%elem_of_seq. apply Hfg. lia.
Qed.

Lemma size_below (X : gset nat) N :
  (∀ b, b ∈ X → b < N) →
  size X = length (List.filter (λ b, bool_decide (b ∈ X)) (seq 0 N)).
Proof.
  intros Hlt. unfold size, set_size. simpl. apply Permutation_length.
  apply NoDup_Permutation.
  - apply NoDup_elements.
  - apply NoDup_ListNoDup, List.NoDup_filter, NoDup_ListNoDup, NoDup_seq.
  - intros x. rewrite elem_of_elements, list_elem_of_In, List.filter_In.
    rewrite in_seq, bool_decide_eq_true. split; [|tauto].
    intros Hx. split; [|done]. specialize (Hlt x Hx). lia.
Qed.

Lemma length_filter_map {A B} (P : B → bool) (g : A → B) (l : list A) :
  length (List.filter P (map g l)) = length (List.filter (λ x, P (g x)) l).
Proof. induction l as [|x l IH]; simpl; [done|]. destruct (P (g x)); simpl; auto. Qed.

Lemma sum_indicator {A} (P : A → bool) (g : A → nat) (l : list A) :
  sum_list_with (λ y, (if P y then 1 else 0) + g y) l
  = length (List.filter P l) + sum_list_with g l.
Proof. induction l as [|x l IH]; simpl; [done|]. rewrite IH. destruct (P x); simpl; lia. Qed.

(** Double counting: for a symmetric relation without loops, counting the
    related elements of every element counts every related pair twice. *)
Lemma sum_of_degrees_is_twice_the_pairs {A} (r : A → A → bool) (l : list A) :
  (∀ x, r x x = false) → (∀ x y, r x y = r y x) →
  sum_list_with (λ x, length (List.filter (r x) l)) l
  = 2 * length (List.filter (λ p, r p.1 p.2) (combinations2 l)).
Proof.
  intros Hirr Hsym. induction l as [|x l IH]; [done|].
  cbn [sum_list_with combinations2 List.filter]. rewrite Hirr.
  rewrite List.filter_app, length_app, length_filter_map. simpl.
  rewrite (sum_list_with_ext_in _
    (λ y, (if r y x then 1 else 0) + length (List.filter (r y) l))).
  2:{ intros y _. simpl. destruct (r y x); simpl; lia. }
  rewrite sum_indicator, IH.
  rewrite (List.filter_ext (λ y, r y x) (r x)) by (intros; apply Hsym).
  change (List.filter (λ y, r x y) l) with (List.filter (r x) l). lia.
Qed.

Lemma combinations2_map {A B} (f : A → B) (l : list A) :
  combinations2 (map f l) = map (λ p, (f p.1, f p.2)) (combinations2 l).
Proof.
  induction l as [|x l IH]; simpl; [done|].
  by rewrite IH, List.map_app, !List.map_map.
Qed.

Lemma fst_enumerate {A} (l : list A) start :
  map fst (enumerate start l) = seq start (length l).
Proof. revert start. induction l as [|x l IH]; intros; simpl; [done|]. by rewrite IH. Qed.

Lemma graph_degree_size {V} (G : Graph.t V) n :
  Graph.has_edge G n n = false → Graph.degree G n = size (graph_nbrs G n).
Proof.
  unfold Graph.has_edge, Graph.degree, graph_nbrs.
  destruct (Graph._adj G !! n); simpl; [|done].
  intros ->. lia.
Qed.

Lemma undirected_build_edge {V} (series : list V) obs i j ti tj :
  (∀ n t1 t2, obs n t1 (S n) t2 = false) →
  i < j → series !! i = Some ti → series !! j = Some tj →
  Graph.has_edge (undirected_build series obs) i j = negb (obs i ti j tj).
Proof.
  intros Hc Hij Hi Hj. destruct (graph_build series obs Hc) as (He & _).
  apply eq_true_iff_eq. rewrite He, negb_true_iff. split.
  - intros (n1 & t1 & n2 & t2 & Hlt & H1 & H2 & Hobs & [[-> ->]|[-> ->]]); [|lia].
    by simplify_eq.
  - intros Hobs. exists i, ti, j, tj. auto 10.
Qed.

(** The undirected loop returns a graph whose number of edges is the
    number of scanned pairs the test lets through. *)
Lemma undirected_build_number_of_edges {V} (series : list V) obs :
  (∀ n t1 t2, obs n t1 (S n) t2 = false) →
  Graph.number_of_edges (undirected_build series obs)
  = length (List.filter (λ '((n1, t1), (n2, t2)), negb (obs n1 t1 n2 t2))
              (combinations2 (enumerate 0 series))).
Proof.
  intros Hc. destruct (graph_build series obs Hc) as (He & _ & Hdom).
  set (G := undirected_build series obs) in *. set (N := length series) in *.
  assert (∀ u, Graph.has_edge G u u = false) as Hirr.
  { intros u. apply not_true_iff_false. rewrite He.
    intros (n1 & t1 & n2 & t2 & Hlt & _ & _ & _ & [[-> ->]|[-> ->]]); lia. }
  assert (∀ u v, Graph.has_edge G u v = true → v < N) as Hrange.
  { intros u v (n1 & t1 & n2 & t2 & Hlt & H1%lookup_lt_Some & H2%lookup_lt_Some
                & _ & [[-> ->]|[-> ->]])%He; done. }
  unfold Graph.number_of_edges.
  rewrite (sum_over_nodes _ N _
             (λ n, length (List.filter (Graph.has_edge G n) (seq 0 N))) Hdom).
  2:{ intros n _. rewrite graph_degree_size by apply Hirr.
      rewrite (size_below _ N).
      - f_equal. apply List.filter_ext. intros b.
        apply eq_true_iff_eq. by rewrite bool_decide_eq_true, graph_has_edge_nbrs.
      - intros b Hb%graph_has_edge_nbrs. by apply Hrange in Hb. }
  rewrite (sum_of_degrees_is_twice_the_pairs (Graph.has_edge G)); [|done|].
  2:{ intros u v. apply undirected_build_sym, Hc. }
  rewrite Nat.mul_comm, Nat.div_mul by done.
  unfold N. rewrite <- (fst_enumerate series 0), combinations2_map, length_filter_map.
  f_equal. apply List.filter_ext_in.
  intros [[n1 t1] [n2 t2]] (Hlt & H1 & H2)%list_elem_of_In%elem_of_scan. simpl.
  by apply undirected_build_edge.
Qed.

(** A node of the directed graph has as many predecessors and successors
    together as it has neighbours in the undirected graph built with the
    same test. *)
Lemma directed_build_degree {V} (series : list V) obs n :
  (∀ n t1 t2, obs n t1 (S n) t2 = false) →
  DiGraph.degree (directed_build series obs) n
  = Graph.degree (undirected_build series obs) n.
Proof.
  intros Hc. destruct (graph_build series obs Hc) as (He & _).
  destruct (digraph_build series obs Hc) as (Hd & Hp & _).
  rewrite graph_degree_size.
  2:{ apply not_true_iff_false. rewrite He.
      intros (n1 & t1 & n2 & t2 & Hlt & _ & _ & _ & [[-> ->]|[-> ->]]); lia. }
  unfold DiGraph.degree.
  change (default ∅ (DiGraph._pred ?G !! n)) with (digraph_preds G n).
  change (default ∅ (DiGraph._succ ?G !! n)) with (digraph_succs G n).
  rewrite <- size_union.
  - f_equal. apply set_eq. intros b.
    rewrite elem_of_union, <- digraph_has_predecessor_preds, <- digraph_has_edge_succs,
      <- graph_has_edge_nbrs, Hp, He, !Hd. split.
    + intros [(t1 & t2 & ? & ? & ? & ?)|(t1 & t2 & ? & ? & ? & ?)].
      * exists b, t1, n, t2. auto 10.
      * exists n, t1, b, t2. auto 10.
    + intros (n1 & t1 & n2 & t2 & Hlt & H1 & H2 & Hobs & [[-> ->]|[-> ->]]).
      * right. eauto 10.
      * left. eauto 10.
  - intros b Hb1%digraph_has_predecessor_preds Hb2%digraph_has_edge_succs.
    rewrite Hp in Hb1. apply Hd in Hb1 as (? & ? & ? & _), Hb2 as (? & ? & ? & _). lia.
Qed.

Lemma directed_build_number_of_edges {V} (series : list V) obs :
  (∀ n t1 t2, obs n t1 (S n) t2 = false) →
  DiGraph.number_of_edges (directed_build series obs)
  = Graph.number_of_edges (undirected_build series obs).
Proof.
  intros Hc. destruct (graph_build series obs Hc) as (_ & _ & Hdu).
  destruct (digraph_build series obs Hc) as (_ & _ & _ & Hdd).
  unfold DiGraph.number_of_edges, Graph.number_of_edges.
  rewrite (sum_over_nodes _ (length series) _
             (Graph.degree (undirected_build series obs)) Hdd)
    by (intros; by apply directed_build_degree).
  by rewrite (sum_over_nodes _ (length series) _
                (Graph.degree (undirected_build series obs)) Hdu).
Qed.

(** X10: the number of edges each generator reports is the number of
    pairs of positions its test does not find obstructed. *)
Theorem number_of_edges_counts_unobstructed_pairs :
  (∀ T (N : Number T) (series : list T),
     Graph.number_of_edges (visibility_graph series)
     = length (List.filter
                 (λ '((n1, t1), (n2, t2)), negb (natural_obstructed series n1 t1 n2 t2))
                 (combinations2 (enumerate 0 series)))) ∧
  (∀ T (C : Comparable T) (timeseries : list T),
     Graph.number_of_edges (horizontal_visibility_graph timeseries)
     = length (List.filter
                 (λ '((n1, t1), (n2, t2)),
                    negb (horizontal_obstructed timeseries n1 t1 n2 t2))
                 (combinations2 (enumerate 0 timeseries))) ∧
     DiGraph.number_of_edges (directed_horizontal_visibility_graph timeseries)
     = length (List.filter
                 (λ '((n1, t1), (n2, t2)),
                    negb (horizontal_obstructed timeseries n1 t1 n2 t2))
                 (combinations2 (enumerate 0 timeseries)))).
Proof.
  split; intros T ? series.
  - rewrite visibility_graph_build.
    apply undirected_build_number_of_edges, natural_obstructed_consecutive.
  - rewrite horizontal_visibility_graph_build,
      directed_horizontal_visibility_graph_build.
    rewrite directed_build_number_of_edges
      by apply horizontal_obstructed_consecutive.
    split; apply undirected_build_number_of_edges, horizontal_obstructed_consecutive.
Qed.

(** X11: the directed and the undirected horizontal graph of a series
    have the same number of edges, and every node has the same degree in
    both (predecessors and successors together against neighbours). *)
Theorem directed_and_undirected_counts_agree (T : Type) (C : Comparable T)
    (timeseries : list T) :
  DiGraph.number_of_edges (directed_horizontal_visibility_graph timeseries)
  = Graph.number_of_edges (horizontal_visibility_graph timeseries) ∧
  ∀ n, DiGraph.degree (directed_horizontal_visibility_graph timeseries) n
       = Graph.degree (horizontal_visibility_graph timeseries) n.
Proof.
  rewrite horizontal_visibility_graph_build, directed_horizontal_visibility_graph_build.
  split.
  - apply directed_build_number_of_edges, horizontal_obstructed_consecutive.
  - intros n. apply directed_build_degree, horizontal_obstructed_consecutive.
Qed.

Lemma length_combinations2 {A} (l : list A) :
  2 * length (combinations2 l) = length l * (length l - 1).
Proof.
  induction l as [|x l IH]; simpl; [done|].
  rewrite length_app, length_map, Nat.sub_0_r.
  destruct l as [|y l]; [done|]. simpl in *. nia.
Qed.

Lemma length_filter_le {A} (P : A → bool) (l : list A) :
  length (List.filter P l) ≤ length l.
Proof. induction l as [|x l IH]; simpl; [done|]. destruct (P x); simpl; lia. Qed.

Lemma length_filter_mono {A} (P Q : A → bool) (l : list A) :
  (∀ x, x ∈ l → Q x = true → P x = true) →
  length (List.filter Q l) ≤ length (List.filter P l).
Proof.
  induction l as [|x l IH]; intros Himp; simpl; [done|].
  assert (length (List.filter Q l) ≤ length (List.filter P l)) as Hle
    by (apply IH; intros y Hy; apply Himp; by right).
  destruct (Q x) eqn:EQ.
  - rewrite (Himp x) by (done || left). simpl. lia.
  - destruct (P x); simpl; lia.
Qed.

(** The pairs of consecutive positions among the scanned pairs of
    [seq start n]: one for every position but the last. *)
Lemma consecutive_pairs_of_seq start n :
  length (List.filter (λ p, p.2 =? S p.1) (combinations2 (seq start n))) = n - 1.
Proof.
  revert start. induction n as [|n IH]; intros start; [done|].
  cbn [seq combinations2]. rewrite List.filter_app, length_app, length_filter_map, IH.
  simpl. destruct n as [|n]; [done|]. simpl. rewrite Nat.eqb_refl. simpl.
  assert (length (List.filter (λ x, x =? S start) (seq (S (S start)) n)) = 0) as ->; [|lia].
  assert (∀ k, S start < k →
            length (List.filter (λ x, x =? S start) (seq k n)) = 0) as Hgen; [|apply Hgen; lia].
  clear. induction n as [|n IH]; intros k Hk; simpl; [done|].
  destruct (Nat.eqb_spec k (S start)); [lia|]. apply IH. lia.
Qed.

(** X12: a series of [n] samples gets at least [n - 1] edges (the path)
    and at most [n (n - 1) / 2] (every pair) from each generator. *)
Theorem number_of_edges_bounds :
  (∀ T (N : Number T) (series : list T),
     length series - 1 ≤ Graph.number_of_edges (visibility_graph series) ∧
     2 * Graph.number_of_edges (visibility_graph series)
     ≤ length series * (length series - 1)) ∧
  (∀ T (C : Comparable T) (timeseries : list T),
     (length timeseries - 1
      ≤ Graph.number_of_edges (horizontal_visibility_graph timeseries) ∧
      2 * Graph.number_of_edges (horizontal_visibility_graph timeseries)
      ≤ length timeseries * (length timeseries - 1)) ∧
     (length timeseries - 1
      ≤ DiGraph.number_of_edges (directed_horizontal_visibility_graph timeseries) ∧
      2 * DiGraph.number_of_edges (directed_horizontal_visibility_graph timeseries)
      ≤ length timeseries * (length timeseries - 1))).
Proof.
  assert (∀ V (series : list V) obs,
    (∀ n t1 t2, obs n t1 (S n) t2 = false) →
    length series - 1 ≤ Graph.number_of_edges (undirected_build series obs) ∧
    2 * Graph.number_of_edges (undirected_build series obs)
    ≤ length series * (length series - 1)) as Hgen.
  { intros V series obs Hc. rewrite undirected_build_number_of_edges by done.
    split.
    - rewrite <- (consecutive_pairs_of_seq 0 (length series)).
      rewrite <- (fst_enumerate series 0), combinations2_map, length_filter_map.
      apply length_filter_mono. intros [[n1 t1] [n2 t2]] _. simpl.
      intros ->%Nat.eqb_eq. by rewrite Hc.
    - rewrite <- (length_enumerate series 0).
      rewrite <- length_combinations2. apply Nat.mul_le_mono_l, length_filter_le. }
  split; intros T ? series.
  - rewrite visibility_graph_build. apply Hgen, natural_obstructed_consecutive.
  - rewrite horizontal_visibility_graph_build,
      directed_horizontal_visibility_graph_build.
    rewrite directed_build_number_of_edges by apply horizontal_obstructed_consecutive.
    split; apply Hgen, horizontal_obstructed_consecutive.
Qed.

(** *** Reading the series backwards *)

Lemma reverse_lookup_mirror {A} (l : list A) i :
  i < length l → reverse l !! (length l - 1 - i) = l !! i.
Proof.
  intros Hi. rewrite reverse_lookup by lia. f_equal. lia.
Qed.

(** The undirected loop on the reversed series, under a test that answers
    on a mirrored pair as the first test on the pair: the mirror image of
    the graph. *)
Lemma undirected_build_reverse {V} (series : list V) obs obs' u v :
  (∀ n t1 t2, obs n t1 (S n) t2 = false) →
  (∀ n t1 t2, obs' n t1 (S n) t2 = false) →
  (∀ n1 t1 n2 t2, n1 < n2 < length series →
     obs' (length series - 1 - n2) t2 (length series - 1 - n1) t1 = obs n1 t1 n2 t2) →
  u < length series → v < length series →
  Graph.has_edge (undirected_build (reverse series) obs')
    (length series - 1 - u) (length series - 1 - v)
  = Graph.has_edge (undirected_build series obs) u v.
Proof.
  intros Hc Hc' Hrev Hu Hv.
  destruct (graph_build series obs Hc) as (He & _).
  destruct (graph_build (reverse series) obs' Hc') as (He' & _).
  set (N := length series) in *.
  apply eq_true_iff_eq. rewrite He, He'. split.
  - intros (n1 & t1 & n2 & t2 & Hlt & H1 & H2 & Hobs & Hends).
    apply reverse_lookup_Some in H1 as [H1 Hn1], H2 as [H2 Hn2]. fold N in H1, H2, Hn1, Hn2.
    exists (N - S n2), t2, (N - S n1), t1.
    split; [lia|]. split; [done|]. split; [done|]. split; [|lia].
    rewrite <- (Hrev (N - S n2) t2 (N - S n1) t1) by lia.
    by replace (N - 1 - (N - S n1)) with n1 by lia;
       replace (N - 1 - (N - S n2)) with n2 by lia.
  - intros (m1 & t1 & m2 & t2 & Hlt & H1 & H2 & Hobs & Hends).
    pose proof (lookup_lt_Some _ _ _ H2) as Hm2. fold N in Hm2.
    exists (N - 1 - m2), t2, (N - 1 - m1), t1.
    split; [lia|]. unfold N. rewrite !reverse_lookup_mirror by (fold N; lia).
    split; [done|]. split; [done|]. split; [|fold N; lia].
    rewrite Hrev; [done|fold N; lia].
Qed.

Lemma directed_build_reverse {V} (series : list V) obs obs' u v :
  (∀ n t1 t2, obs n t1 (S n) t2 = false) →
  (∀ n t1 t2, obs' n t1 (S n) t2 = false) →
  (∀ n1 t1 n2 t2, n1 < n2 < length series →
     obs' (length series - 1 - n2) t2 (length series - 1 - n1) t1 = obs n1 t1 n2 t2) →
  u < length series → v < length series →
  DiGraph.has_edge (directed_build (reverse series) obs')
    (length series - 1 - v) (length series - 1 - u)
  = DiGraph.has_edge (directed_build series obs) u v.
Proof.
  intros Hc Hc' Hrev Hu Hv.
  destruct (digraph_build series obs Hc) as (He & _).
  destruct (digraph_build (reverse series) obs' Hc') as (He' & _).
  set (N := length series) in *.
  apply eq_true_iff_eq. rewrite He, He'. split.
  - intros (t1 & t2 & Hlt & H1 & H2 & Hobs).
    unfold N in H1, H2. rewrite reverse_lookup_mirror in H1, H2 by done.
    exists t2, t1. split; [lia|]. split; [done|]. split; [done|].
    rewrite <- (Hrev u t2 v t1) by (fold N; lia). done.
  - intros (t1 & t2 & Hlt & H1 & H2 & Hobs).
    exists t2, t1. split; [lia|]. unfold N. rewrite !reverse_lookup_mirror by done.
    split; [done|]. split; [done|]. rewrite Hrev; [done|lia].
Qed.

Lemma horizontal_obstructed_reverse {T} `{Comparable T} (series : list T) n1 t1 n2 t2 :
  (∀ a b c : T, num_ge c (py_max a b) = num_ge c (py_max b a)) →
  n1 < n2 < length series →
  horizontal_obstructed (reverse series)
    (length series - 1 - n2) t2 (length series - 1 - n1) t1
  = horizontal_obstructed series n1 t1 n2 t2.
Proof.
  intros Hcomm Hn. apply eq_true_iff_eq. rewrite !horizontal_obstructed_true. split.
  - intros (k & tk & Hk & Hl & Hge).
    apply reverse_lookup_Some in Hl as [Hl Hk'].
    exists (length series - S k), tk. split; [lia|]. split; [done|]. by rewrite Hcomm.
  - intros (k & tk & Hk & Hl & Hge).
    exists (length series - 1 - k), tk. split; [lia|].
    rewrite reverse_lookup_mirror by lia. split; [done|]. by rewrite Hcomm.
Qed.

Lemma py_max_comm_Z (a b c : Z) : num_ge c (py_max a b) = num_ge c (py_max b a).
Proof.
  unfold py_max. simpl.
  destruct (Z.ltb_spec a b), (Z.ltb_spec b a); try done; try lia.
Qed.

Lemma py_max_comm_Q (a b c : Q) : num_ge c (py_max a b) = num_ge c (py_max b a).
Proof.
  unfold py_max. simpl.
  destruct (Qle_bool b a) eqn:E1, (Qle_bool a b) eqn:E2; simpl; try done.
  - apply Qle_bool_iff in E1, E2. apply eq_true_iff_eq. rewrite !Qle_bool_iff.
    split; intros; lra.
  - assert (¬ (b <= a)%Q) by (rewrite <- Qle_bool_iff; congruence).
    assert (¬ (a <= b)%Q) by (rewrite <- Qle_bool_iff; congruence). lra.
Qed.

Lemma Q_of_nat_mirror (N n : nat) :
  n < N →
  (inject_Z (Z.of_nat (N - 1 - n))
   == inject_Z (Z.of_nat (N - 1)) - inject_Z (Z.of_nat n))%Q.
Proof.
  intros Hn. replace (Z.of_nat (N - 1 - n)) with (Z.of_nat (N - 1) - Z.of_nat n)%Z by lia.
  unfold Z.sub. by rewrite inject_Z_plus, inject_Z_opp.
Qed.

Lemma natural_obstructed_reverse (series : list Q) n1 t1 n2 t2 :
  n1 < n2 < length series →
  natural_obstructed (reverse series)
    (length series - 1 - n2) t2 (length series - 1 - n1) t1
  = natural_obstructed series n1 t1 n2 t2.
Proof.
  intros Hn. set (N := length series) in *.
  assert (∀ k tk, n1 < k < n2 →
    Qle_bool
      ((t1 - t2) / inject_Z (Z.of_nat (N - 1 - n1) - Z.of_nat (N - 1 - n2))
         * inject_Z (Z.of_nat (N - 1 - k))
       + (t1 - (t1 - t2) / inject_Z (Z.of_nat (N - 1 - n1) - Z.of_nat (N - 1 - n2))
                 * inject_Z (Z.of_nat (N - 1 - n1)))) tk
    = Qle_bool
        ((t2 - t1) / inject_Z (Z.of_nat n2 - Z.of_nat n1) * inject_Z (Z.of_nat k)
         + (t2 - (t2 - t1) / inject_Z (Z.of_nat n2 - Z.of_nat n1)
                   * inject_Z (Z.of_nat n2))) tk) as Hline.
  { intros k tk Hk. apply eq_true_iff_eq. rewrite !Qle_bool_iff.
    replace (Z.of_nat (N - 1 - n1) - Z.of_nat (N - 1 - n2))%Z
      with (Z.of_nat n2 - Z.of_nat n1)%Z by lia.
    rewrite !Q_of_nat_mirror by lia. rewrite Q_of_nat_sub.
    pose proof (Q_of_nat_lt n1 n2 (proj1 Hn)).
    set (x1 := inject_Z (Z.of_nat n1)) in *. set (x2 := inject_Z (Z.of_nat n2)) in *.
    set (x := inject_Z (Z.of_nat k)). set (m := inject_Z (Z.of_nat (N - 1))).
    assert ((t1 - t2) / (x2 - x1) * (m - x) + (t1 - (t1 - t2) / (x2 - x1) * (m - x1))
            == (t2 - t1) / (x2 - x1) * x + (t2 - (t2 - t1) / (x2 - x1) * x2))%Q as ->
      by (field; lra).
    done. }
  apply eq_true_iff_eq. rewrite !natural_obstructed_true. split.
  - intros (k & tk & Hk & Hl & Hge).
    apply reverse_lookup_Some in Hl as [Hl Hk']. fold N in Hl, Hk'.
    exists (N - S k), tk. split; [lia|]. split; [done|].
    simpl in *. rewrite <- Hline by lia.
    by replace (N - 1 - (N - S k)) with k by lia.
  - intros (k & tk & Hk & Hl & Hge).
    exists (N - 1 - k), tk. split; [lia|].
    unfold N. rewrite reverse_lookup_mirror by (fold N; lia). fold N.
    split; [done|]. simpl in *. by rewrite Hline.
Qed.

(** X13: on exact rationals, reading the series backwards mirrors the
    graphs: the undirected graphs of the reversed series join the mirror
    images of the positions the graphs of the series join, and the
    directed graph has every edge turned round. *)
Theorem reversed_series_mirror_the_graphs (series : list Q) u v :
  u < length series → v < length series →
  Graph.has_edge (visibility_graph (reverse series))
    (length series - 1 - u) (length series - 1 - v)
  = Graph.has_edge (visibility_graph series) u v ∧
  Graph.has_edge (horizontal_visibility_graph (reverse series))
    (length series - 1 - u) (length series - 1 - v)
  = Graph.has_edge (horizontal_visibility_graph series) u v ∧
  DiGraph.has_edge (directed_horizontal_visibility_graph (reverse series))
    (length series - 1 - v) (length series - 1 - u)
  = DiGraph.has_edge (directed_horizontal_visibility_graph series) u v.
Proof.
  intros Hu Hv.
  rewrite !visibility_graph_build, !horizontal_visibility_graph_build,
    !directed_horizontal_visibility_graph_build.
  split; [|split].
  - apply undirected_build_reverse; auto using natural_obstructed_consecutive.
    intros. by apply natural_obstructed_reverse.
  - apply undirected_build_reverse; auto using horizontal_obstructed_consecutive.
    intros. apply horizontal_obstructed_reverse; [apply py_max_comm_Q|done].
  - apply directed_build_reverse; auto using horizontal_obstructed_consecutive.
    intros. apply horizontal_obstructed_reverse; [apply py_max_comm_Q|done].
Qed.

Lemma reversed_series_mirror_the_graphs_witness :
  let series := [3; 1; 0; 2]%Q in
  0 < length series ∧ 3 < length series ∧
  Graph.has_edge (visibility_graph (reverse series))
    (length series - 1 - 0) (length series - 1 - 3)
  = Graph.has_edge (visibility_graph series) 0 3.
Proof.
  intros series.
  assert (0 < length series) as H0 by (simpl; lia).
  assert (3 < length series) as H3 by (simpl; lia).
  split; [exact H0|]. split; [exact H3|].
  destruct (reversed_series_mirror_the_graphs series 0 3 H0 H3) as (Hn & _).
  exact Hn.
Defined.

(** X14: the same for the two horizontal graphs of a list of [int]. *)
Theorem reversed_int_series_mirror_the_horizontal_graphs (timeseries : list Z) u v :
  u < length timeseries → v < length timeseries →
  Graph.has_edge (horizontal_visibility_graph (reverse timeseries))
    (length timeseries - 1 - u) (length timeseries - 1 - v)
  = Graph.has_edge (horizontal_visibility_graph timeseries) u v ∧
  DiGraph.has_edge (directed_horizontal_visibility_graph (reverse timeseries))
    (length timeseries - 1 - v) (length timeseries - 1 - u)
  = DiGraph.has_edge (directed_horizontal_visibility_graph timeseries) u v.
Proof.
  intros Hu Hv.
  rewrite !horizontal_visibility_graph_build,
    !directed_horizontal_visibility_graph_build.
  split.
  - apply undirected_build_reverse; auto using horizontal_obstructed_consecutive.
    intros. apply horizontal_obstructed_reverse; [apply py_max_comm_Z|done].
  - apply directed_build_reverse; auto using horizontal_obstructed_consecutive.
    intros. apply horizontal_obstructed_reverse; [apply py_max_comm_Z|done].
Qed.

Lemma reversed_int_series_mirror_the_horizontal_graphs_witness :
  2 < length periodic ∧ 4 < length periodic ∧
  DiGraph.has_edge (directed_horizontal_visibility_graph (reverse periodic))
    (length periodic - 1 - 4) (length periodic - 1 - 2)
  = DiGraph.has_edge (directed_horizontal_visibility_graph periodic) 2 4.
Proof.
  assert (2 < length periodic) as H2 by (simpl; lia).
  assert (4 < length periodic) as H4 by (simpl; lia).
  split; [exact H2|]. split; [exact H4|].
  destruct (reversed_int_series_mirror_the_horizontal_graphs periodic 2 4 H2 H4)
    as (_ & Hd).
  exact Hd.
Defined.

(** *** A sample that reaches both ends *)

(** X15: on exact rationals, a sample strictly between two positions that
    is at least as high as both of them blocks the pair in the three
    graphs. *)
Theorem a_sample_above_both_ends_blocks (series : list Q) i k j (ti tk tj : Q) :
  i < k < j →
  series !! i = Some ti → series !! k = Some tk → series !! j = Some tj →
  (ti <= tk)%Q → (tj <= tk)%Q →
  Graph.has_edge (visibility_graph series) i j = false ∧
  Graph.has_edge (horizontal_visibility_graph series) i j = false ∧
  DiGraph.has_edge (directed_horizontal_visibility_graph series) i j = false.
Proof.
  intros Hk Hi Hl Hj Hki Hkj.
  assert (horizontal_obstructed series i ti j tj = true) as Hobs.
  { apply horizontal_obstructed_true. exists k, tk. split; [done|]. split; [done|].
    unfold py_max. simpl. destruct (negb (Qle_bool tj ti)); by apply Qle_bool_iff. }
  rewrite (natural_edge_unobstructed series i j ti tj) by (done || lia).
  destruct (horizontal_edge_unobstructed series i j ti tj) as [-> ->]; [lia|done..|].
  by rewrite Hobs, (horizontal_obstructed_natural_obstructed _ _ _ _ _ Hobs).
Qed.

Lemma a_sample_above_both_ends_blocks_witness :
  let series := [1; 3; 2]%Q in
  0 < 1 < 2 ∧ (1 <= 3)%Q ∧ (2 <= 3)%Q ∧
  Graph.has_edge (visibility_graph series) 0 2 = false ∧
  Graph.has_edge (horizontal_visibility_graph series) 0 2 = false.
Proof.
  intros series.
  assert (1 <= 3)%Q as H13 by (vm_compute; discriminate).
  assert (2 <= 3)%Q as H23 by (vm_compute; discriminate).
  split; [lia|]. split; [exact H13|]. split; [exact H23|].
  destruct (a_sample_above_both_ends_blocks series 0 1 2 1%Q 3%Q 2%Q)
    as (Hn & Hh & _); [lia|reflexivity|reflexivity|reflexivity|exact H13|exact H23|].
  split; [exact Hn|exact Hh].
Defined.
